(** * glTF viewer sample: flattening of the scene graph and the frame callback

    A shallow embedding of [sample/1_glTFViewer/gltfViewer.cpp]:
    the file-scope buffers [vertices], [indicies] and [drawObjects], the
    recursive flattening [load_gltf_node], its driver [load_gltf_model] and
    the per-frame callback handed to [Renderer::Run].

    Conventions.
    - [size_t] is 64 bits wide and [uint32_t] 32 bits wide; values computed
      by the program are carried by [Z] and every narrowing conversion is
      written out.  The [size_t] fields of the parsed document are naturals
      ([N]).
    - Subscripting a [std::vector] outside its range, or reading a buffer
      outside its allocation, has no defined behaviour in C++: it is the
      outcome [Undefined].
    - Scalars of type [float] and [double] are kept abstract (class
      [Externals]); only the operations the program applies to them occur.
    - Multi-byte integers are read in little-endian order, as on the x86-64
      targets the sample is built for. *)

From stdpp Require Import base numbers option list strings gmap relations.
From Stdlib Require Import ZArith Lia.
From Stdlib.Strings Require Import Byte.

Local Open Scope Z_scope.

(** ** Machine integers *)

Definition size_t (z : Z) : Z := z mod 2 ^ 64.
Definition uint32_t (z : Z) : Z := z mod 2 ^ 32.
Definition INT_MAX : Z := 2 ^ 31 - 1.

(** [v[i]] on a [std::vector]; an [int] subscript that is negative becomes a
    huge [size_t] and is out of range like any other. *)
Definition vec_at {A : Type} (v : list A) (i : Z) : option A :=
  if decide (0 ≤ i) then v !! Z.to_nat i else None.

(** [v.size()] *)
Definition vec_size {A : Type} (v : list A) : Z := Z.of_nat (length v).

(** ** glm vectors and matrices, over an arbitrary scalar type *)

Record vec3 (T : Type) := Vec3 { v3_x : T; v3_y : T; v3_z : T }.
Record vec4 (T : Type) := Vec4 { v4_x : T; v4_y : T; v4_z : T; v4_w : T }.
(** [glm::mat4] is column major: [m[c]] is column [c]. *)
Record mat4 (T : Type) := Mat4 { col0 : vec4 T; col1 : vec4 T; col2 : vec4 T; col3 : vec4 T }.

Arguments Vec3 {T} _ _ _.
Arguments v3_x {T} _. Arguments v3_y {T} _. Arguments v3_z {T} _.
Arguments Vec4 {T} _ _ _ _.
Arguments v4_x {T} _. Arguments v4_y {T} _. Arguments v4_z {T} _. Arguments v4_w {T} _.
Arguments Mat4 {T} _ _ _ _.
Arguments col0 {T} _. Arguments col1 {T} _. Arguments col2 {T} _. Arguments col3 {T} _.

(** ** The parsed glTF document (tinygltf's structures, the fields the
    sample reads) *)

Record Accessor := {
  acc_bufferView : Z;      (* int bufferView *)
  acc_byteOffset : N;      (* size_t byteOffset *)
  acc_count : N;           (* size_t count *)
  acc_componentType : Z;   (* int componentType *)
  acc_type : Z             (* int type *)
}.

Record BufferView := {
  bv_buffer : Z;           (* int buffer *)
  bv_byteOffset : N;       (* size_t byteOffset *)
  bv_byteStride : N        (* size_t byteStride *)
}.

Record Buffer := { buf_data : list byte }.

Record Primitive := {
  attributes : gmap string Z;   (* std::map<std::string, int> *)
  indices : Z                   (* int indices *)
}.

Record Mesh := { primitives : list Primitive }.

Record Scene := { scene_nodes : list Z }.

(** ** What the sample takes from its libraries

    [F] and [D] stand for [float] and [double]; [f_of_d] converts, [fadd]
    and [fmul] are the [float] sum and product, [f_times_minus1] is
    [x *= -1.0], and [f0], [f1], [f0_7] are [0], [1] and [0.7] as [float]s.
    [f_of_bytes] reinterprets four bytes of a buffer as a [float].
    [ByteStride] is [tinygltf::Accessor::ByteStride], which returns an [int].
    [frame_view] is the [glm::lookAt] call of the frame callback as a
    function of [ctx.time], and [frame_perspective] its [glm::perspective]
    call as a function of the window's width and height. *)

Class Externals := {
  F : Type;
  D : Type;
  f_of_d : D → F;
  fadd : F → F → F;
  fmul : F → F → F;
  f_times_minus1 : F → F;
  f0 : F;
  f1 : F;
  f0_7 : F;
  f_of_bytes : list byte → F;
  ByteStride : Accessor → BufferView → Z;
  Time : Type;
  frame_view : Time → mat4 F;
  frame_perspective : Z → Z → mat4 F
}.

(** ** Outcomes and the state monad the code runs in *)

Inductive outcome (S A : Type) : Type :=
  | Ok (a : A) (s : S)
  | Threw (msg : string) (s : S)
  | Undefined
  | OutOfFuel.

Arguments Ok {S A} _ _.
Arguments Threw {S A} _ _.
Arguments Undefined {S A}.
Arguments OutOfFuel {S A}.

Definition M (S A : Type) : Type := S → outcome S A.

Definition ret {S A : Type} (a : A) : M S A := fun s => Ok a s.

Definition bind {S A B : Type} (m : M S A) (k : A → M S B) : M S B :=
  fun s =>
    match m s with
    | Ok a s' => k a s'
    | Threw msg s' => Threw msg s'
    | Undefined => Undefined
    | OutOfFuel => OutOfFuel
    end.

Definition throw {S A : Type} (msg : string) : M S A := fun s => Threw msg s.

(** An access that C++ leaves undefined when it is out of range. *)
Definition checked {S A : Type} (o : option A) : M S A :=
  fun s => match o with Some a => Ok a s | None => Undefined end.

Definition gets {S A : Type} (f : S → A) : M S A := fun s => Ok (f s) s.
Definition modify {S : Type} (f : S → S) : M S unit := fun s => Ok tt (f s).

Declare Scope gfx_scope.
Delimit Scope gfx_scope with gfx.
Notation "'let*' x ':=' m 'in' k" := (bind m (fun x => k))
  (at level 10, x name, m at level 100, k at level 200, only parsing) : gfx_scope.
Notation "m1 '>>' m2" := (bind m1 (fun _ => m2))
  (at level 70, right associativity, only parsing) : gfx_scope.
Local Open Scope gfx_scope.

(** [for (auto& x : xs) body(x)] *)
Fixpoint for_each {S A : Type} (xs : list A) (body : A → M S unit) : M S unit :=
  match xs with
  | [] => ret tt
  | x :: rest => body x >> for_each rest body
  end.

(** [for (size_t index = start; ...; index++) body(index)], run for [n]
    iterations. *)
Fixpoint for_range {S : Type} (n : nat) (index : Z) (body : Z → M S unit) : M S unit :=
  match n with
  | O => ret tt
  | S n' => body index >> for_range n' (index + 1) body
  end.

(** A run that neither throws nor runs out of fuel, and that is undefined
    only if [P] fails. *)
Definition settled {S A : Type} (P : Prop) (r : outcome S A) : Prop :=
  match r with
  | Ok _ _ => True
  | Undefined => ¬ P
  | Threw _ _ | OutOfFuel => False
  end.

(** A command that, from every state, returns or is undefined. *)
Definition benign {S A : Type} (m : M S A) : Prop :=
  ∀ s, settled False (m s).

(** A command that, from no state, throws. *)
Definition never_throws {S A : Type} (m : M S A) : Prop :=
  ∀ s msg s', m s ≠ Threw msg s'.

Section Program.
Context `{Ext : Externals}.

(** ** The document, continued: nodes carry [double] matrices *)

Record Node := {
  matrix : list D;      (* std::vector<double> matrix *)
  mesh : Z;             (* int mesh *)
  children : list Z     (* std::vector<int> children *)
}.

Record Model := {
  nodes : list Node;
  meshes : list Mesh;
  accessors : list Accessor;
  bufferViews : list BufferView;
  buffers : list Buffer;
  scenes : list Scene;
  defaultScene : Z      (* int defaultScene *)
}.

(** ** The sample's own records *)

Record Vertex := { pos : vec3 F; color : vec3 F }.

Record DrawCmd := {
  indexCount : Z;       (* uint32_t *)
  firstIndex : Z;       (* uint32_t *)
  vertexOffset : Z;     (* uint32_t *)
  transform : mat4 F
}.

Record ShaderUniform := { modelMtx : mat4 F; viewProjMtx : mat4 F }.

(** The three file-scope vectors the loader fills. *)
Record Globals := {
  vertices : list Vertex;
  indicies : list Z;          (* std::vector<uint32_t> *)
  drawObjects : list DrawCmd
}.

(** Their state when [main] starts: empty vectors. *)
Definition initial_globals : Globals :=
  {| vertices := []; indicies := []; drawObjects := [] |}.

Definition push_vertex (v : Vertex) : M Globals unit :=
  modify (fun g => {| vertices := vertices g ++ [v];
                      indicies := indicies g;
                      drawObjects := drawObjects g |}).

Definition push_index (i : Z) : M Globals unit :=
  modify (fun g => {| vertices := vertices g;
                      indicies := indicies g ++ [i];
                      drawObjects := drawObjects g |}).

Definition push_draw (c : DrawCmd) : M Globals unit :=
  modify (fun g => {| vertices := vertices g;
                      indicies := indicies g;
                      drawObjects := drawObjects g ++ [c] |}).

(** ** glm operations *)

(** [glm::mat4(1.0)] *)
Definition mat4_identity : mat4 F :=
  Mat4 (Vec4 f1 f0 f0 f0) (Vec4 f0 f1 f0 f0) (Vec4 f0 f0 f1 f0) (Vec4 f0 f0 f0 f1).

Definition vec4_scale (v : vec4 F) (s : F) : vec4 F :=
  Vec4 (fmul (v4_x v) s) (fmul (v4_y v) s) (fmul (v4_z v) s) (fmul (v4_w v) s).

Definition vec4_add (a b : vec4 F) : vec4 F :=
  Vec4 (fadd (v4_x a) (v4_x b)) (fadd (v4_y a) (v4_y b))
       (fadd (v4_z a) (v4_z b)) (fadd (v4_w a) (v4_w b)).

(** One column of [m1 * m2]: [m1[0]*b[0] + m1[1]*b[1] + m1[2]*b[2] + m1[3]*b[3]],
    summed from the left. *)
Definition mat4_mul_col (m1 : mat4 F) (b : vec4 F) : vec4 F :=
  vec4_add
    (vec4_add
       (vec4_add (vec4_scale (col0 m1) (v4_x b)) (vec4_scale (col1 m1) (v4_y b)))
       (vec4_scale (col2 m1) (v4_z b)))
    (vec4_scale (col3 m1) (v4_w b)).

(** [m1 * m2] on [glm::mat4] *)
Definition mat4_mul (m1 m2 : mat4 F) : mat4 F :=
  Mat4 (mat4_mul_col m1 (col0 m2)) (mat4_mul_col m1 (col1 m2))
       (mat4_mul_col m1 (col2 m2)) (mat4_mul_col m1 (col3 m2)).

(** [glm::mat4(a0, ..., a15)] given sixteen [double]s: four columns of four,
    each entry converted to [float]. *)
Definition mat4_of_16 (a0 a1 a2 a3 a4 a5 a6 a7 a8 a9 a10 a11 a12 a13 a14 a15 : D) : mat4 F :=
  Mat4 (Vec4 (f_of_d a0) (f_of_d a1) (f_of_d a2) (f_of_d a3))
       (Vec4 (f_of_d a4) (f_of_d a5) (f_of_d a6) (f_of_d a7))
       (Vec4 (f_of_d a8) (f_of_d a9) (f_of_d a10) (f_of_d a11))
       (Vec4 (f_of_d a12) (f_of_d a13) (f_of_d a14) (f_of_d a15)).

(** ** Reading the binary buffers *)

(** The [n] bytes at byte offset [off] of [data], when they all lie inside. *)
Definition read_bytes (data : list byte) (off : Z) (n : nat) : option (list byte) :=
  if decide (0 ≤ off ∧ off + Z.of_nat n ≤ vec_size data)
  then Some (take n (drop (Z.to_nat off) data))
  else None.

(** [((float* )(data + base))[k]] *)
Definition read_float (data : list byte) (base : Z) (k : Z) : option F :=
  f_of_bytes <$> read_bytes data (base + 4 * k) 4.

Definition byte_val (b : byte) : Z := Z.of_N (Byte.to_N b).

(** [((uint16_t* )(data + base))[0]] *)
Definition read_u16 (data : list byte) (base : Z) : option Z :=
  match read_bytes data base 2 with
  | Some [b0; b1] => Some (byte_val b0 + 256 * byte_val b1)
  | _ => None
  end.

(** [primitive.attributes[key]]: [std::map::operator[]] yields the stored
    value, or a value-initialised [0] when the key is absent (the entry it
    then adds maps the key to that same [0], so later lookups agree). *)
Definition attr_at (attrs : gmap string Z) (key : string) : Z :=
  default 0 (attrs !! key).

(** ** [load_gltf_node] *)

(** Lines 80-85: the node's own matrix.  The sixteen subscripts are
    evaluated only in the first branch of the conditional. *)
Definition local_transform (node : Node) : option (mat4 F) :=
  let m := matrix node in
  if decide (vec_size m = 16) then
    a0 ← vec_at m 0; a1 ← vec_at m 1; a2 ← vec_at m 2; a3 ← vec_at m 3;
    a4 ← vec_at m (4 + 0); a5 ← vec_at m (4 + 1); a6 ← vec_at m (4 + 2); a7 ← vec_at m (4 + 3);
    a8 ← vec_at m (8 + 0); a9 ← vec_at m (8 + 1); a10 ← vec_at m (8 + 2); a11 ← vec_at m (8 + 3);
    a12 ← vec_at m (12 + 0); a13 ← vec_at m (12 + 1); a14 ← vec_at m (12 + 2); a15 ← vec_at m (12 + 3);
    Some (mat4_of_16 a0 a1 a2 a3 a4 a5 a6 a7 a8 a9 a10 a11 a12 a13 a14 a15)
  else Some mat4_identity.

(** Byte offset, inside the buffer's data, of element [index] of an accessor:
    [bufferView.byteOffset + accessor.byteOffset + stride * index], the
    product being a [size_t] product. *)
Definition element_offset (view : BufferView) (acc : Accessor) (stride index : Z) : Z :=
  Z.of_N (bv_byteOffset view) + Z.of_N (acc_byteOffset acc) + size_t (stride * index).

(** Lines 126-131: body of the vertex loop. *)
Definition push_vertex_at (positionBuffer : Buffer) (positionBufferView : BufferView)
    (positionAccessor : Accessor) (positionBufferStride : Z) (index : Z) : M Globals unit :=
  let elementBase := element_offset positionBufferView positionAccessor positionBufferStride index in
  let* e0 := checked (read_float (buf_data positionBuffer) elementBase 0) in
  let* e1 := checked (read_float (buf_data positionBuffer) elementBase 1) in
  let* e2 := checked (read_float (buf_data positionBuffer) elementBase 2) in
  push_vertex {| pos := Vec3 e0 e1 e2; color := Vec3 f0_7 f0_7 f0_7 |}.

(** Lines 137-138: body of the index loop. *)
Definition push_index_at (indexBuffer : Buffer) (indexBufferView : BufferView)
    (indexAccessor : Accessor) (indexBufferStride : Z) (index : Z) : M Globals unit :=
  let elementBase := element_offset indexBufferView indexAccessor indexBufferStride index in
  let* e0 := checked (read_u16 (buf_data indexBuffer) elementBase) in
  push_index (uint32_t e0).

(** [spdlog] calls write to the log only. *)
Definition spdlog {S : Type} (msg : string) : M S unit := ret tt.

(** Lines 99-147: one primitive of a mesh. *)
Definition load_primitive (model : Model) (localTransform : mat4 F)
    (primitive : Primitive) : M Globals unit :=
  let* positionAccessor :=
    checked (vec_at (accessors model) (attr_at (attributes primitive) "POSITION")) in
  spdlog "{}x{}, offset = {}" >>
  let* positionBufferView :=
    checked (vec_at (bufferViews model) (acc_bufferView positionAccessor)) in
  let* positionBuffer := checked (vec_at (buffers model) (bv_buffer positionBufferView)) in
  let positionBufferStride := size_t (ByteStride positionAccessor positionBufferView) in
  let* indexAccessor := checked (vec_at (accessors model) (indices primitive)) in
  spdlog "{}x{}, offset = {}" >>
  let* indexBufferView :=
    checked (vec_at (bufferViews model) (acc_bufferView indexAccessor)) in
  let* indexBuffer := checked (vec_at (buffers model) (bv_buffer indexBufferView)) in
  let indexBufferStride := size_t (ByteStride indexAccessor indexBufferView) in
  let* startVertex := gets (fun g => vec_size (vertices g)) in
  let* startIndex := gets (fun g => vec_size (indicies g)) in
  for_range (N.to_nat (acc_count positionAccessor)) 0
    (push_vertex_at positionBuffer positionBufferView positionAccessor positionBufferStride) >>
  for_range (N.to_nat (acc_count indexAccessor)) 0
    (push_index_at indexBuffer indexBufferView indexAccessor indexBufferStride) >>
  push_draw {| indexCount := uint32_t (Z.of_N (acc_count indexAccessor));
               firstIndex := uint32_t startIndex;
               vertexOffset := uint32_t startVertex;
               transform := localTransform |}.

(** Lines 90-149: the mesh of a node, if it has one. *)
Definition load_node_mesh (model : Model) (node : Node) (localTransform : mat4 F)
    : M Globals unit :=
  if decide (0 ≤ mesh node) then
    let* m := checked (vec_at (meshes model) (mesh node)) in
    spdlog "======== NODE {} ========" >>
    for_each (primitives m) (load_primitive model localTransform)
  else ret tt.

(** Lines 73-156.  The recursion of the source is bounded here by [fuel],
    the depth of calls still allowed; running out of it is [OutOfFuel]. *)
Fixpoint load_gltf_node (fuel : nat) (model : Model) (nodeId : Z) (transform : mat4 F)
    : M Globals unit :=
  match fuel with
  | O => fun _ => OutOfFuel
  | S fuel' =>
      let* node := checked (vec_at (nodes model) nodeId) in
      let* localTransform := checked (local_transform node) in
      let localTransform := mat4_mul localTransform transform in
      load_node_mesh model node localTransform >>
      for_each (children node)
        (fun childNodeId => load_gltf_node fuel' model childNodeId localTransform)
  end.

(** ** [load_gltf_model] *)

(** What [loader.LoadASCIIFromFile(&model, &err, &warn, model_file)] left
    behind: its return value and its three out-parameters. *)
Record Loaded := {
  loaded_ret : bool;
  loaded_err : string;
  loaded_warn : string;
  loaded_model : Model
}.

Definition str_empty (s : string) : bool :=
  match s with EmptyString => true | _ => false end.

(** Lines 159-199. *)
Definition load_gltf_model (fuel : nat) (l : Loaded) : M Globals unit :=
  let model := loaded_model l in
  (if negb (str_empty (loaded_warn l)) then spdlog "Warn" else ret tt) >>
  (if negb (str_empty (loaded_err l))
   then spdlog "Err" >> throw "glTF parsing error"
   else ret tt) >>
  (if negb (loaded_ret l)
   then spdlog "Failed to parse glTF" >> throw "Fail to parse glTF"
   else ret tt) >>
  let* scene := checked (vec_at (scenes model) (defaultScene model)) in
  let transform := mat4_identity in
  for_each (scene_nodes scene)
    (fun sceneRootNodeId => load_gltf_node fuel model sceneRootNodeId transform) >>
  spdlog "======== glTF load finished ========".

(** ** The frame callback of [main]

    [Renderer::Context] and the command buffer belong to the rendering
    library; of the context only [time] and [imageIndex] are read.  The
    commands the callback records are kept as a list. *)

Record Context := { ctx_time : Time; ctx_imageIndex : Z }.

Inductive GpuCommand : Type :=
  | CmdBegin
  | CmdBeginRenderPass (framebuffer : Z) (w h : Z)
  | CmdBindPipeline
  | CmdBindVertexBuffer (offset : Z)
  | CmdBindIndexBuffer (offset : Z)
  | CmdBindGraphicsUniformBuffer (offset size binding : Z)
  | CmdDrawIndexed (indexCount firstIndex vertexOffset : Z)
  | CmdEndRenderPass
  | CmdEnd.

(** Everything the callback can reach: the file-scope variables, the window
    size held by the renderer, and the locals of [main] it captures by
    reference.  [uniformBuffer] is the mapped memory seen as an array of
    [ShaderUniform]. *)
Record App := {
  globals : Globals;
  viewMtx : mat4 F;
  projMtx : mat4 F;
  width : Z;
  height : Z;
  uniformBuffer : list ShaderUniform;
  framebuffers : list Z;
  recorded : list GpuCommand
}.

Definition set_viewMtx (m : mat4 F) (a : App) : App :=
  {| globals := globals a; viewMtx := m; projMtx := projMtx a;
     width := width a; height := height a; uniformBuffer := uniformBuffer a;
     framebuffers := framebuffers a; recorded := recorded a |}.

Definition set_projMtx (m : mat4 F) (a : App) : App :=
  {| globals := globals a; viewMtx := viewMtx a; projMtx := m;
     width := width a; height := height a; uniformBuffer := uniformBuffer a;
     framebuffers := framebuffers a; recorded := recorded a |}.

Definition set_uniformBuffer (u : list ShaderUniform) (a : App) : App :=
  {| globals := globals a; viewMtx := viewMtx a; projMtx := projMtx a;
     width := width a; height := height a; uniformBuffer := u;
     framebuffers := framebuffers a; recorded := recorded a |}.

Definition record_cmd (c : GpuCommand) : M App unit :=
  modify (fun a =>
    {| globals := globals a; viewMtx := viewMtx a; projMtx := projMtx a;
       width := width a; height := height a; uniformBuffer := uniformBuffer a;
       framebuffers := framebuffers a; recorded := recorded a ++ [c] |}).

(** [m[1][1] *= -1.0] *)
Definition flip_y (m : mat4 F) : mat4 F :=
  Mat4 (col0 m)
       (Vec4 (v4_x (col1 m)) (f_times_minus1 (v4_y (col1 m))) (v4_z (col1 m)) (v4_w (col1 m)))
       (col2 m) (col3 m).

(** [i++] on an [int]: overflow is undefined. *)
Definition int_incr {S : Type} (i : Z) : M S Z :=
  if decide (i < INT_MAX) then ret (i + 1) else fun _ => Undefined.

(** [int i = 0; for (auto& x : xs) { body(x, i); i++; }] *)
Fixpoint for_each_counting {S A : Type} (xs : list A) (i : Z) (body : A → Z → M S unit)
    : M S unit :=
  match xs with
  | [] => ret tt
  | x :: rest =>
      body x i >>
      let* i' := int_incr i in
      for_each_counting rest i' body
  end.

(** [ctx.imageIndex * drawObjects.size() + i], a [size_t] expression. *)
Definition uniform_slot (imageIndex n i : Z) : Z := size_t (imageIndex * n + i).

Definition sizeof_ShaderUniform : Z := 128.

(** Lines 288-290: the uniform of one draw. *)
Definition write_uniform (ctx : Context) (drawCmd : DrawCmd) (i : Z) : M App unit :=
  let* n := gets (fun a => vec_size (drawObjects (globals a))) in
  let slot := uniform_slot (ctx_imageIndex ctx) n i in
  let* _ := bind (gets uniformBuffer) (fun u => checked (vec_at u slot)) in
  modify (fun a => set_uniformBuffer
    (alter (fun u => {| modelMtx := transform drawCmd; viewProjMtx := viewProjMtx u |})
           (Z.to_nat slot) (uniformBuffer a)) a) >>
  modify (fun a => set_uniformBuffer
    (alter (fun u => {| modelMtx := modelMtx u; viewProjMtx := mat4_mul (projMtx a) (viewMtx a) |})
           (Z.to_nat slot) (uniformBuffer a)) a).

(** Lines 309-310: the commands of one draw. *)
Definition record_draw (ctx : Context) (drawCmd : DrawCmd) (i : Z) : M App unit :=
  let* n := gets (fun a => vec_size (drawObjects (globals a))) in
  record_cmd (CmdBindGraphicsUniformBuffer
                (size_t (sizeof_ShaderUniform * uniform_slot (ctx_imageIndex ctx) n i))
                sizeof_ShaderUniform 0) >>
  record_cmd (CmdDrawIndexed (indexCount drawCmd) (firstIndex drawCmd) (vertexOffset drawCmd)).

(** Lines 277-318.  [WithRenderPass] is taken to begin the pass, call the
    closure once and end the pass. *)
Definition render (ctx : Context) : M App unit :=
  let* w := gets width in
  let* h := gets height in
  modify (set_viewMtx (frame_view (ctx_time ctx))) >>
  modify (set_projMtx (frame_perspective w h)) >>
  modify (fun a => set_projMtx (flip_y (projMtx a)) a) >>
  let* objs := gets (fun a => drawObjects (globals a)) in
  for_each_counting objs 0 (write_uniform ctx) >>
  record_cmd CmdBegin >>
  let* fb := bind (gets framebuffers) (fun fbs => checked (vec_at fbs (ctx_imageIndex ctx))) in
  record_cmd (CmdBeginRenderPass fb (uint32_t w) (uint32_t h)) >>
  record_cmd CmdBindPipeline >>
  record_cmd (CmdBindVertexBuffer 0) >>
  record_cmd (CmdBindIndexBuffer 0) >>
  let* objs := gets (fun a => drawObjects (globals a)) in
  for_each_counting objs 0 (record_draw ctx) >>
  record_cmd CmdEndRenderPass >>
  record_cmd CmdEnd.

(** The renderer calls the frame callback once per frame, each time with
    that frame's context. *)
Definition run_frames (frames : list Context) : M App unit :=
  for_each frames render.

(** ** The rest of [main]

    Besides the frame callback, [main] reads the two shader files, loads the
    document, and hands the renderer an initialisation callback that uploads
    the buffers, describes the pipeline and makes one framebuffer per
    swapchain image.  The pipeline builder belongs to the rendering library:
    the calls made on it are kept as a list. *)

Inductive PipelineCall : Type :=
  | AddVertexBuffer
  | AddAttribute (location offset : Z)
  | AddDescriptorUniform (binding : Z)
  | AddFragmentShaders (source : string)
  | AddVertexShaders (source : string)
  | SetViewport (w h : Z)
  | AddAttachment
  | BuildPipeline.

(** What [main] holds besides [App]: the two shader strings, the contents of
    the two GPU buffers made by the initialisation callback, and the calls
    made on the pipeline. *)
Record Main := {
  application : App;
  vertexShader : string;
  fragmentShader : string;
  vertexBuffer : list Vertex;
  indexBuffer : list Z;
  pipeline : list PipelineCall
}.

Definition set_app (a : App) (s : Main) : Main :=
  {| application := a; vertexShader := vertexShader s; fragmentShader := fragmentShader s;
     vertexBuffer := vertexBuffer s; indexBuffer := indexBuffer s;
     pipeline := pipeline s |}.

Definition set_globals (g : Globals) (a : App) : App :=
  {| globals := g; viewMtx := viewMtx a; projMtx := projMtx a;
     width := width a; height := height a; uniformBuffer := uniformBuffer a;
     framebuffers := framebuffers a; recorded := recorded a |}.

(** A command on a part of the state, run on the whole. *)
Definition zoom {S T A : Type} (get : S → T) (set : T → S → S) (m : M T A) : M S A :=
  fun s =>
    match m (get s) with
    | Ok a t => Ok a (set t s)
    | Threw msg t => Threw msg (set t s)
    | Undefined => Undefined
    | OutOfFuel => OutOfFuel
    end.

Definition in_app {A : Type} (m : M App A) : M Main A := zoom application set_app m.
Definition in_globals {A : Type} (m : M Globals A) : M App A := zoom globals set_globals m.

Definition undefined {S A : Type} : M S A := fun _ => Undefined.

(** The whole contents of the file at [path]: an [std::ifstream] on a file
    that cannot be opened yields no characters. *)
Definition read_file (files : gmap string string) (path : string) : string :=
  default ""%string (files !! path).

(** Lines 61-68; [src_dir] is the macro [SRC_DIR]. *)
Definition load_shader_file (files : gmap string string) (src_dir : string) : M Main unit :=
  modify (fun s =>
    {| application := application s; vertexShader := vertexShader s;
       fragmentShader := read_file files (src_dir +:+ "/sample/1_glTFViewer/fragment.glsl");
       vertexBuffer := vertexBuffer s; indexBuffer := indexBuffer s;
       pipeline := pipeline s |}) >>
  modify (fun s =>
    {| application := application s;
       vertexShader := read_file files (src_dir +:+ "/sample/1_glTFViewer/vertex.glsl");
       fragmentShader := fragmentShader s;
       vertexBuffer := vertexBuffer s; indexBuffer := indexBuffer s;
       pipeline := pipeline s |}).

Definition sizeof_Vertex : Z := 24.
Definition sizeof_uint32_t : Z := 4.
Definition offsetof_pos : Z := 0.
Definition offsetof_color : Z := 12.

Definition pipeline_call (c : PipelineCall) : M Main unit :=
  modify (fun s =>
    {| application := application s; vertexShader := vertexShader s; fragmentShader := fragmentShader s;
       vertexBuffer := vertexBuffer s; indexBuffer := indexBuffer s;
       pipeline := pipeline s ++ [c] |}).

(** [std::copy(v.begin(), v.end(), p)] into a mapped allocation of [bytes]
    bytes seen as an array of elements of [elem] bytes: writing past the
    allocation is undefined. *)
Definition copy_to_mapped {S A : Type} (v : list A) (bytes elem : Z) : M S (list A) :=
  if decide (vec_size v ≤ bytes / elem) then ret v else undefined.

(** Lines 227-275, the initialisation callback.  [views] are the renderer's
    swapchain image views, [createFramebuffer] the framebuffer the renderer
    makes for a view, and [junk] what the fresh uniform allocation happens to
    contain, slot by slot. *)
Definition init (views : list Z) (createFramebuffer : Z → Z)
    (junk : nat → ShaderUniform) : M Main unit :=
  let* vs := gets (fun s => vertices (globals (application s))) in
  let* vertexBufferGPU :=
    copy_to_mapped vs (size_t (vec_size vs * sizeof_Vertex)) sizeof_Vertex in
  modify (fun s =>
    {| application := application s; vertexShader := vertexShader s; fragmentShader := fragmentShader s;
       vertexBuffer := vertexBufferGPU; indexBuffer := indexBuffer s;
       pipeline := pipeline s |}) >>
  let* ixs := gets (fun s => indicies (globals (application s))) in
  let* indexBufferGPU :=
    copy_to_mapped ixs (size_t (vec_size ixs * sizeof_uint32_t)) sizeof_uint32_t in
  modify (fun s =>
    {| application := application s; vertexShader := vertexShader s; fragmentShader := fragmentShader s;
       vertexBuffer := vertexBuffer s; indexBuffer := indexBufferGPU;
       pipeline := pipeline s |}) >>
  let* n := gets (fun s => vec_size (drawObjects (globals (application s)))) in
  let bytes := size_t (size_t (sizeof_ShaderUniform * vec_size views) * n) in
  in_app (modify (set_uniformBuffer
            (junk <$> seq 0 (Z.to_nat (bytes / sizeof_ShaderUniform))))) >>
  pipeline_call AddVertexBuffer >>
  pipeline_call (AddAttribute 0 offsetof_pos) >>
  pipeline_call (AddAttribute 1 offsetof_color) >>
  pipeline_call (AddDescriptorUniform 0) >>
  let* fs := gets fragmentShader in
  pipeline_call (AddFragmentShaders fs) >>
  let* vsrc := gets vertexShader in
  pipeline_call (AddVertexShaders vsrc) >>
  let* w := gets (fun s => width (application s)) in
  let* h := gets (fun s => height (application s)) in
  pipeline_call (SetViewport w h) >>
  pipeline_call AddAttachment >>
  pipeline_call BuildPipeline >>
  for_each views (fun imageView =>
    in_app (modify (fun a =>
      {| globals := globals a; viewMtx := viewMtx a; projMtx := projMtx a;
         width := width a; height := height a; uniformBuffer := uniformBuffer a;
         framebuffers := framebuffers a ++ [createFramebuffer imageView];
         recorded := recorded a |}))).

(** [Renderer::Run(init, render, cleanup)]: the renderer calls the first
    callback once, the second once per frame with that frame's context, and
    the third once at the end. *)
Definition Run (initCb : M Main unit) (renderCb : Context → M Main unit)
    (cleanupCb : M Main unit) (frames : list Context) : M Main unit :=
  initCb >> for_each frames renderCb >> cleanupCb.

(** Lines 202-326. *)
Definition main (fuel : nat) (files : gmap string string) (src_dir : string)
    (l : Loaded) (views : list Z) (createFramebuffer : Z → Z)
    (junk : nat → ShaderUniform) (frames : list Context) : M Main unit :=
  load_shader_file files src_dir >>
  in_app (in_globals (load_gltf_model fuel l)) >>
  Run (init views createFramebuffer junk)
      (fun ctx => in_app (render ctx))
      (ret tt)
      frames.

(** The commands one frame records for the draw commands [cmds], the first
    of which is draw number [i]. *)
Fixpoint draw_commands (imageIndex n : Z) (i : Z) (cmds : list DrawCmd) : list GpuCommand :=
  match cmds with
  | [] => []
  | c :: rest =>
      CmdBindGraphicsUniformBuffer
        (size_t (sizeof_ShaderUniform * uniform_slot imageIndex n i))
        sizeof_ShaderUniform 0
      :: CmdDrawIndexed (indexCount c) (firstIndex c) (vertexOffset c)
      :: draw_commands imageIndex n (i + 1) rest
  end.

(** The draw commands cover the index positions from [start] to [stop], one
    after the other, without gap or overlap. *)
Fixpoint tiles (start : Z) (cmds : list DrawCmd) (stop : Z) : Prop :=
  match cmds with
  | [] => start = stop
  | c :: rest => firstIndex c = start ∧ tiles (start + indexCount c) rest stop
  end.

(** ** Vocabulary for the statements below *)

(** What one pass of the vertex loop pushes for [index], when its three
    reads are inside the buffer. *)
Definition vertex_of (B : Buffer) (V : BufferView) (A : Accessor) (stride index : Z)
    : option Vertex :=
  let base := element_offset V A stride index in
  e0 ← read_float (buf_data B) base 0;
  e1 ← read_float (buf_data B) base 1;
  e2 ← read_float (buf_data B) base 2;
  Some {| pos := Vec3 e0 e1 e2; color := Vec3 f0_7 f0_7 f0_7 |}.

(** What one pass of the index loop pushes for [index]. *)
Definition index_of (B : Buffer) (V : BufferView) (A : Accessor) (stride index : Z)
    : option Z :=
  uint32_t <$> read_u16 (buf_data B) (element_offset V A stride index).

(** An accessor together with the buffer view and the buffer it points to. *)
Definition accessor_data (model : Model) (accessorId : Z)
    : option (Accessor * BufferView * Buffer) :=
  a ← vec_at (accessors model) accessorId;
  v ← vec_at (bufferViews model) (acc_bufferView a);
  b ← vec_at (buffers model) (bv_buffer v);
  Some (a, v, b).

Definition add_vertices (vs : list Vertex) (g : Globals) : Globals :=
  {| vertices := vertices g ++ vs; indicies := indicies g; drawObjects := drawObjects g |}.

Definition add_indices (ixs : list Z) (g : Globals) : Globals :=
  {| vertices := vertices g; indicies := indicies g ++ ixs; drawObjects := drawObjects g |}.

(** [g'] is [g] with [vs], [ixs] and [ds] appended to the three vectors. *)
Definition appended (g g' : Globals) (vs : list Vertex) (ixs : list Z) (ds : list DrawCmd)
    : Prop :=
  vertices g' = vertices g ++ vs ∧
  indicies g' = indicies g ++ ixs ∧
  drawObjects g' = drawObjects g ++ ds.

(** A draw command stays inside the buffers of [g]. *)
Definition in_buffers (g : Globals) (c : DrawCmd) : Prop :=
  firstIndex c + indexCount c ≤ vec_size (indicies g) ∧
  vertexOffset c ≤ vec_size (vertices g).

(** The passage from [g] to [g'] only appended, and what it appended to
    [drawObjects] stays inside the buffers of [g']. *)
Definition grows (g g' : Globals) : Prop :=
  ∃ vs ixs ds, appended g g' vs ixs ds ∧ Forall (in_buffers g') ds.

(** The passage from [g] to [g'] only appended and, while the index buffer
    stays below [2^32] elements, draw commands that covered it still do. *)
Definition keeps_tiling (g g' : Globals) : Prop :=
  grows g g' ∧
  (vec_size (indicies g') < 2 ^ 32 →
   ∀ start, tiles start (drawObjects g) (vec_size (indicies g)) →
            tiles start (drawObjects g') (vec_size (indicies g'))).

(** Where a vertex of the flattened buffer comes from: it is element [k]
    of some accessor of the document, read at that accessor's stride, and
    it has the fixed colour. *)
Definition vertex_from (model : Model) (v : Vertex) : Prop :=
  color v = Vec3 f0_7 f0_7 f0_7 ∧
  ∃ accessorId pa pv pb k,
    accessor_data model accessorId = Some (pa, pv, pb) ∧
    0 ≤ k < Z.of_N (acc_count pa) ∧
    vertex_of pb pv pa (size_t (ByteStride pa pv)) k = Some v.

(** Between [a] and [a'] neither the framebuffers, nor the recorded
    commands, nor the length of the uniform buffer differ. *)
Definition only_uniforms (a a' : App) : Prop :=
  framebuffers a' = framebuffers a ∧ recorded a' = recorded a ∧
  length (uniformBuffer a') = length (uniformBuffer a).

(** Between [s] and [s'] the loader's vectors, the two GPU buffers, the
    shader strings and the pipeline are the same. *)
Definition frames_keep (s s' : Main) : Prop :=
  globals (application s') = globals (application s) ∧
  vertexBuffer s' = vertexBuffer s ∧ indexBuffer s' = indexBuffer s ∧
  vertexShader s' = vertexShader s ∧ fragmentShader s' = fragmentShader s ∧
  pipeline s' = pipeline s.

(** The calls the initialisation callback makes on the pipeline, for given
    shader sources and window size. *)
Definition pipeline_calls (fragment vertex : string) (w h : Z) : list PipelineCall :=
  [AddVertexBuffer; AddAttribute 0 offsetof_pos; AddAttribute 1 offsetof_color;
   AddDescriptorUniform 0; AddFragmentShaders fragment; AddVertexShaders vertex;
   SetViewport w h; AddAttachment; BuildPipeline].

(** [s] once the two shader files have been read. *)
Definition with_shaders (files : gmap string string) (src_dir : string) (s : Main) : Main :=
  {| application := application s;
     vertexShader := read_file files (src_dir +:+ "/sample/1_glTFViewer/vertex.glsl");
     fragmentShader := read_file files (src_dir +:+ "/sample/1_glTFViewer/fragment.glsl");
     vertexBuffer := vertexBuffer s; indexBuffer := indexBuffer s;
     pipeline := pipeline s |}.

(** A value that fits sixteen bits. *)
Definition is_u16 (i : Z) : Prop := 0 ≤ i < 65536.

(** The index buffer holds sixteen-bit values only. *)
Definition indices_u16 (g : Globals) : Prop := Forall is_u16 (indicies g).

(** The matrix a node contributes, as a total function: the [glm::mat4] of
    its sixteen entries when [matrix] has exactly sixteen, else the
    identity. *)
Definition node_matrix (node : Node) : mat4 F :=
  match matrix node with
  | [a0; a1; a2; a3; a4; a5; a6; a7; a8; a9; a10; a11; a12; a13; a14; a15] =>
      mat4_of_16 a0 a1 a2 a3 a4 a5 a6 a7 a8 a9 a10 a11 a12 a13 a14 a15
  | _ => mat4_identity
  end.

(** From [g] to [g'] only draw commands satisfying [P] were added to
    [drawObjects]. *)
Definition adds_draws (P : DrawCmd → Prop) (g g' : Globals) : Prop :=
  ∃ ds, drawObjects g' = drawObjects g ++ ds ∧ Forall P ds.

(** The callback's view of the loader's vectors is the same in [a] and [a']. *)
Definition same_globals (a a' : App) : Prop := globals a' = globals a.

(** Nothing but the list of recorded commands differs between [a] and [a']. *)
Definition only_recorded (a a' : App) : Prop :=
  globals a' = globals a ∧ uniformBuffer a' = uniformBuffer a ∧
  viewMtx a' = viewMtx a ∧ projMtx a' = projMtx a.

(** [child] is listed among the children of node [parent]. *)
Definition child_of (model : Model) (parent child : Z) : Prop :=
  ∃ node, vec_at (nodes model) parent = Some node ∧ child ∈ children node.

(** [descent model top path]: [path] lists the nodes met going down from
    [top], each one a child of the one before; it starts with [top]. *)
Inductive descent (model : Model) : Z → list Z → Prop :=
  | descent_here (top : Z) : descent model top [top]
  | descent_down (top child : Z) (rest : list Z) :
      child_of model top child →
      descent model child rest →
      descent model top (top :: rest).

(** The transform accumulated along a path entered with [start]: every
    node multiplies its own matrix, on the left, with what it received. *)
Fixpoint accumulated (model : Model) (start : mat4 F) (path : list Z) : option (mat4 F) :=
  match path with
  | [] => Some start
  | nodeId :: rest =>
      node ← vec_at (nodes model) nodeId;
      accumulated model (mat4_mul (node_matrix node) start) rest
  end.

(** No node below [top] (or [top] itself) is its own descendant. *)
Definition acyclic_from (model : Model) (top : Z) : Prop :=
  ∀ a, rtc (child_of model) top a → ¬ tc (child_of model) a a.

(** Every subscript and every buffer read a primitive needs is in range. *)
Definition primitive_in_range (model : Model) (prim : Primitive) : Prop :=
  ∃ pa pv pb ia iv ib,
    accessor_data model (attr_at (attributes prim) "POSITION") = Some (pa, pv, pb) ∧
    accessor_data model (indices prim) = Some (ia, iv, ib) ∧
    (∀ k, 0 ≤ k < Z.of_N (acc_count pa) →
       is_Some (vertex_of pb pv pa (size_t (ByteStride pa pv)) k)) ∧
    (∀ k, 0 ≤ k < Z.of_N (acc_count ia) →
       is_Some (index_of ib iv ia (size_t (ByteStride ia iv)) k)).

Definition node_in_range (model : Model) (node : Node) : Prop :=
  (0 ≤ mesh node →
     ∃ m, vec_at (meshes model) (mesh node) = Some m ∧
          Forall (primitive_in_range model) (primitives m)) ∧
  Forall (fun c => is_Some (vec_at (nodes model) c)) (children node).

(** The document refers only to nodes, meshes, accessors, views and bytes
    that exist. *)
Definition model_in_range (model : Model) : Prop :=
  Forall (node_in_range model) (nodes model).

(** A depth-first visit, as a relation between the state before and the
    state after: the node's own mesh is loaded first, with the node's matrix
    multiplied on the left of the transform received, then the children are
    visited one after the other in the order of [children], each with that
    product and each to the end of its own subtree before the next. *)
Inductive depth_first (model : Model) : Z → mat4 F → Globals → Globals → Prop :=
  | depth_first_node (nodeId : Z) (node : Node) (tr : mat4 F) (g g1 g' : Globals) :
      vec_at (nodes model) nodeId = Some node →
      load_node_mesh model node (mat4_mul (node_matrix node) tr) g = Ok tt g1 →
      depth_first_all model (children node) (mat4_mul (node_matrix node) tr) g1 g' →
      depth_first model nodeId tr g g'
with depth_first_all (model : Model) : list Z → mat4 F → Globals → Globals → Prop :=
  | depth_first_none (tr : mat4 F) (g : Globals) :
      depth_first_all model [] tr g g
  | depth_first_next (c : Z) (cs : list Z) (tr : mat4 F) (g g1 g' : Globals) :
      depth_first model c tr g g1 →
      depth_first_all model cs tr g1 g' →
      depth_first_all model (c :: cs) tr g g'.

Scheme depth_first_mut := Minimality for depth_first Sort Prop
  with depth_first_all_mut := Minimality for depth_first_all Sort Prop.

Combined Scheme depth_first_mutind from depth_first_mut, depth_first_all_mut.

(** Where an element of the flattened index buffer comes from: it is the
    unsigned value of the two bytes found at element [k] of the index accessor
    of some primitive of the document, low byte first. *)
Definition index_from (model : Model) (x : Z) : Prop :=
  ∃ m prim ia iv ib k b0 b1,
    m ∈ meshes model ∧ prim ∈ primitives m ∧
    accessor_data model (indices prim) = Some (ia, iv, ib) ∧
    0 ≤ k < Z.of_N (acc_count ia) ∧
    read_bytes (buf_data ib) (element_offset iv ia (size_t (ByteStride ia iv)) k) 2
      = Some [b0; b1] ∧
    x = byte_val b0 + 256 * byte_val b1.

(** The draw command [c] is the one made for primitive [prim] under the
    transform [tr]. *)
Definition command_of (model : Model) (tr : mat4 F) (prim : Primitive) (c : DrawCmd) : Prop :=
  ∃ ia iv ib,
    accessor_data model (indices prim) = Some (ia, iv, ib) ∧
    indexCount c = uint32_t (Z.of_N (acc_count ia)) ∧
    transform c = tr.

End Program.

(** ** A concrete instance, for running the definitions

    Scalars are integers ([0.7] is represented by [7]); four bytes are read
    as a little-endian integer.  [tight_stride] follows the documented
    behaviour of [tinygltf::Accessor::ByteStride]: the view's [byteStride]
    when it is set and a multiple of the component size, the size of one
    tightly packed element when it is [0], and [-1] otherwise. *)

Definition component_size (componentType : Z) : Z :=
  if decide (componentType = 5120) then 1        (* BYTE *)
  else if decide (componentType = 5121) then 1   (* UNSIGNED_BYTE *)
  else if decide (componentType = 5122) then 2   (* SHORT *)
  else if decide (componentType = 5123) then 2   (* UNSIGNED_SHORT *)
  else if decide (componentType = 5124) then 4   (* INT *)
  else if decide (componentType = 5125) then 4   (* UNSIGNED_INT *)
  else if decide (componentType = 5126) then 4   (* FLOAT *)
  else if decide (componentType = 5130) then 8   (* DOUBLE *)
  else -1.

Definition num_components (type : Z) : Z :=
  if decide (type = 65) then 1                   (* SCALAR *)
  else if decide (type = 2) then 2               (* VEC2 *)
  else if decide (type = 3) then 3               (* VEC3 *)
  else if decide (type = 4) then 4               (* VEC4 *)
  else -1.

Definition tight_stride (a : Accessor) (v : BufferView) : Z :=
  let c := component_size (acc_componentType a) in
  if decide (c ≤ 0) then -1
  else if decide (bv_byteStride v = 0%N) then
    let k := num_components (acc_type a) in
    if decide (k ≤ 0) then -1 else c * k
  else if decide (Z.of_N (bv_byteStride v) mod c = 0) then Z.of_N (bv_byteStride v)
  else -1.

Definition le_int (bs : list byte) : Z :=
  foldr (fun b acc => byte_val b + 256 * acc) 0 bs.

Definition sample_ext : Externals :=
  {| F := Z; D := Z; f_of_d := fun d => d;
     fadd := Z.add; fmul := Z.mul; f_times_minus1 := Z.opp;
     f0 := 0; f1 := 1; f0_7 := 7;
     f_of_bytes := le_int;
     ByteStride := tight_stride;
     Time := Z;
     frame_view := fun t =>
       Mat4 (Vec4 1 0 0 0) (Vec4 0 1 0 0) (Vec4 0 0 1 0) (Vec4 t t t 1);
     frame_perspective := fun w h =>
       Mat4 (Vec4 h 0 0 0) (Vec4 0 w 0 0) (Vec4 0 0 1 0) (Vec4 0 0 0 1) |}.

(** A two-node document: a root that scales by two, and its child carrying a
    one-triangle mesh.  The buffer holds three positions (36 bytes) followed
    by three 16-bit indices. *)

Definition sample_buffer : Buffer :=
  {| buf_data :=
       [ x01; x00; x00; x00;  x02; x00; x00; x00;  x03; x00; x00; x00;
         x04; x00; x00; x00;  x05; x00; x00; x00;  x06; x00; x00; x00;
         x07; x00; x00; x00;  x08; x00; x00; x00;  x09; x00; x00; x00;
         x00; x00;  x01; x00;  x02; x01 ] |}.

Definition sample_positions : Accessor :=
  {| acc_bufferView := 0; acc_byteOffset := 0%N; acc_count := 3%N;
     acc_componentType := 5126; acc_type := 3 |}.

Definition sample_indices : Accessor :=
  {| acc_bufferView := 1; acc_byteOffset := 0%N; acc_count := 3%N;
     acc_componentType := 5123; acc_type := 65 |}.

Definition sample_primitive : Primitive :=
  {| attributes := {[ "POSITION"%string := 0 ]}; indices := 1 |}.

Definition sample_root : @Node sample_ext :=
  @Build_Node sample_ext [2; 0; 0; 0;  0; 2; 0; 0;  0; 0; 2; 0;  0; 0; 0; 1] (-1) [1].

Definition sample_leaf : @Node sample_ext :=
  @Build_Node sample_ext [] 0 [].

Definition sample_model : @Model sample_ext :=
  @Build_Model sample_ext
    [sample_root; sample_leaf]
    [ {| primitives := [sample_primitive] |} ]
    [sample_positions; sample_indices]
    [ {| bv_buffer := 0; bv_byteOffset := 0%N; bv_byteStride := 0%N |};
      {| bv_buffer := 0; bv_byteOffset := 36%N; bv_byteStride := 0%N |} ]
    [sample_buffer]
    [ {| scene_nodes := [0] |} ]
    0.

Definition sample_loaded : @Loaded sample_ext :=
  @Build_Loaded sample_ext true "" "" sample_model.

Definition sample_scale2 : mat4 Z :=
  Mat4 (Vec4 2 0 0 0) (Vec4 0 2 0 0) (Vec4 0 0 2 0) (Vec4 0 0 0 1).

Definition sample_cmd : @DrawCmd sample_ext :=
  @Build_DrawCmd sample_ext 3 0 0 sample_scale2.

Definition sample_flat : @Globals sample_ext :=
  @Build_Globals sample_ext
    [ @Build_Vertex sample_ext (Vec3 1 2 3) (Vec3 7 7 7);
      @Build_Vertex sample_ext (Vec3 4 5 6) (Vec3 7 7 7);
      @Build_Vertex sample_ext (Vec3 7 8 9) (Vec3 7 7 7) ]
    [0; 1; 258]
    [sample_cmd].

Definition sample_uniform : @ShaderUniform sample_ext :=
  @Build_ShaderUniform sample_ext sample_scale2 sample_scale2.

(** The application after loading the sample document, with two swapchain
    images and a 4 by 3 window. *)
Definition sample_app : @App sample_ext :=
  @Build_App sample_ext sample_flat sample_scale2 sample_scale2 4 3
    [sample_uniform; sample_uniform] [100; 101] [].

Definition sample_ctx : @Context sample_ext := @Build_Context sample_ext 5 1.

(** A document with one node whose mesh has the same primitive twice, over
    accessors of [n] positions and [n] indices: a buffer of [14 n] zero
    bytes, [n] positions of twelve bytes followed by [n] sixteen-bit
    indices. *)

Definition huge_positions (n : N) : Accessor :=
  {| acc_bufferView := 0; acc_byteOffset := 0%N; acc_count := n;
     acc_componentType := 5126; acc_type := 3 |}.

Definition huge_indices (n : N) : Accessor :=
  {| acc_bufferView := 1; acc_byteOffset := 0%N; acc_count := n;
     acc_componentType := 5123; acc_type := 65 |}.

Definition huge_buffer (n : N) : Buffer :=
  {| buf_data := replicate (N.to_nat (14 * n)) x00 |}.

Definition huge_view0 : BufferView :=
  {| bv_buffer := 0; bv_byteOffset := 0%N; bv_byteStride := 0%N |}.

Definition huge_view1 (n : N) : BufferView :=
  {| bv_buffer := 0; bv_byteOffset := (12 * n)%N; bv_byteStride := 0%N |}.

Definition huge_model (n : N) : @Model sample_ext :=
  @Build_Model sample_ext
    [sample_leaf]
    [ {| primitives := [sample_primitive; sample_primitive] |} ]
    [huge_positions n; huge_indices n]
    [huge_view0; huge_view1 n]
    [huge_buffer n]
    [ {| scene_nodes := [0] |} ]
    0.

Definition huge_loaded (n : N) : @Loaded sample_ext :=
  @Build_Loaded sample_ext true "" "" (huge_model n).

(** A document whose one node has a mesh of two primitives: the triangle of
    the sample, then a primitive of two indices over the same positions. *)
Definition short_indices : Accessor :=
  {| acc_bufferView := 1; acc_byteOffset := 2%N; acc_count := 2%N;
     acc_componentType := 5123; acc_type := 65 |}.

Definition short_primitive : Primitive :=
  {| attributes := {[ "POSITION"%string := 0 ]}; indices := 2 |}.

Definition pair_model : @Model sample_ext :=
  @Build_Model sample_ext
    [sample_leaf]
    [ {| primitives := [sample_primitive; short_primitive] |} ]
    [sample_positions; sample_indices; short_indices]
    [ {| bv_buffer := 0; bv_byteOffset := 0%N; bv_byteStride := 0%N |};
      {| bv_buffer := 0; bv_byteOffset := 36%N; bv_byteStride := 0%N |} ]
    [sample_buffer]
    [ {| scene_nodes := [0] |} ]
    0.

(** A load that failed: the loader returned [false] and left a warning. *)
Definition sample_failed : @Loaded sample_ext :=
  @Build_Loaded sample_ext false "" "unused extension" sample_model.

Definition sample_ctx0 : @Context sample_ext := @Build_Context sample_ext 9 0.

Definition final_state {S A : Type} (r : outcome S A) (otherwise : S) : S :=
  match r with Ok _ s => s | _ => otherwise end.

(** The sample application after one frame, and after two. *)
Definition sample_app_frame1 : @App sample_ext :=
  Eval vm_compute in final_state (@render sample_ext sample_ctx sample_app) sample_app.

Definition sample_app_frame2 : @App sample_ext :=
  Eval vm_compute in
    final_state (@run_frames sample_ext [sample_ctx; sample_ctx0] sample_app) sample_app.

(** A document whose only node lists itself as its child. *)
Definition looping_model : @Model sample_ext :=
  @Build_Model sample_ext
    [ @Build_Node sample_ext [] (-1) [0] ]
    [] [] [] []
    [ {| scene_nodes := [0] |} ]
    0.

(** The sample primitive without its POSITION attribute, and a primitive
    without indices. *)
Definition bare_primitive : Primitive := {| attributes := ∅; indices := 1 |}.
Definition unindexed_primitive : Primitive :=
  {| attributes := {[ "POSITION"%string := 0 ]}; indices := -1 |}.

(** The sample document with no default scene. *)
Definition sceneless_loaded : @Loaded sample_ext :=
  @Build_Loaded sample_ext true "" ""
    (@Build_Model sample_ext [sample_root; sample_leaf]
       [ {| primitives := [sample_primitive] |} ]
       [sample_positions; sample_indices]
       [ {| bv_buffer := 0; bv_byteOffset := 0%N; bv_byteStride := 0%N |};
         {| bv_buffer := 0; bv_byteOffset := 36%N; bv_byteStride := 0%N |} ]
       [sample_buffer] [] (-1)).

(** [main] before it starts: nothing loaded, nothing allocated. *)
Definition sample_start : @Main sample_ext :=
  @Build_Main sample_ext
    (@Build_App sample_ext initial_globals sample_scale2 sample_scale2 4 3 [] [] [])
    "" "" [] [] [].

Definition sample_files : gmap string string :=
  {[ "/src/sample/1_glTFViewer/fragment.glsl"%string := "void main() { /* fragment */ }"%string;
     "/src/sample/1_glTFViewer/vertex.glsl"%string := "void main() { /* vertex */ }"%string ]}.

Definition sample_junk : nat → @ShaderUniform sample_ext := fun _ => sample_uniform.

Definition sample_createFramebuffer : Z → Z := fun view => view + 100.

(** The sample application loaded and initialised for two swapchain images,
    and the whole run of [main] over two frames. *)
Definition sample_before_init : @Main sample_ext :=
  @set_app sample_ext
    (@set_globals sample_ext sample_flat (@application sample_ext sample_start))
    sample_start.

Definition sample_ready : @Main sample_ext :=
  Eval vm_compute in
    final_state
      (@init sample_ext [0; 1] sample_createFramebuffer sample_junk sample_before_init)
      sample_start.

Definition sample_done : @Main sample_ext :=
  Eval vm_compute in
    final_state
      (@main sample_ext 2 sample_files "/src" sample_loaded [0; 1]
         sample_createFramebuffer sample_junk [sample_ctx; sample_ctx0] sample_start)
      sample_start.

Definition pair_loaded : @Loaded sample_ext :=
  @Build_Loaded sample_ext true "" "" pair_model.

(** What flattening the two-primitive document gives. *)
Definition pair_flat : @Globals sample_ext :=
  Eval vm_compute in
    final_state (@load_gltf_node sample_ext 1 pair_model 0 (@mat4_identity sample_ext)
                   (@initial_globals sample_ext))
                (@initial_globals sample_ext).

(** * Properties *)

Section Properties.
Context `{Ext : Externals}.

(** ** The monad *)

Lemma bind_Ok {S A B : Type} (m : M S A) (k : A → M S B) s b s' :
  bind m k s = Ok b s' ↔ ∃ a s1, m s = Ok a s1 ∧ k a s1 = Ok b s'.
Proof.
  unfold bind. split.
  - destruct (m s) as [a s1| | |] eqn:E; try discriminate. eauto.
  - intros (a & s1 & -> & Hk). exact Hk.
Qed.

Lemma checked_Ok {S A : Type} (o : option A) (s : S) a s' :
  checked o s = Ok a s' ↔ o = Some a ∧ s' = s.
Proof.
  unfold checked. destruct o; split; intros H; try discriminate.
  - by inversion H.
  - destruct H as [[= ->] ->]. done.
  - by destruct H.
Qed.

Lemma gets_Ok {S A : Type} (f : S → A) (s : S) a s' :
  gets f s = Ok a s' ↔ a = f s ∧ s' = s.
Proof. unfold gets. split; [by inversion 1 | by intros [-> ->]]. Qed.

Lemma modify_Ok {S : Type} (f : S → S) (s : S) u s' :
  modify f s = Ok u s' ↔ s' = f s.
Proof. unfold modify. destruct u. split; [by inversion 1 | by intros ->]. Qed.

Lemma ret_Ok {S A : Type} (a : A) (s : S) b s' :
  ret a s = Ok b s' ↔ b = a ∧ s' = s.
Proof. unfold ret. split; [by inversion 1 | by intros [-> ->]]. Qed.

(** Take a successful run apart, one command at a time. *)
Ltac inv_ok :=
  repeat match goal with
  | H : bind _ _ _ = Ok _ _ |- _ =>
      apply bind_Ok in H; destruct H as (? & ? & ? & H)
  | H : checked _ _ = Ok _ _ |- _ => apply checked_Ok in H; destruct H as [H ->]
  | H : gets _ _ = Ok _ _ |- _ => apply gets_Ok in H; destruct H as [-> ->]
  | H : modify _ _ = Ok _ _ |- _ => apply modify_Ok in H; subst
  | H : ret _ _ = Ok _ _ |- _ => apply ret_Ok in H; destruct H as [? ->]
  | H : spdlog _ _ = Ok _ _ |- _ => apply ret_Ok in H; destruct H as [? ->]
  | u : unit |- _ => destruct u
  end.

(** ** Loops *)

(** A relation between states that every pass of the body respects, and that
    is reflexive and transitive, is respected by the whole loop. *)
Lemma for_each_rel {S A : Type} (R : relation S) `{!PreOrder R}
    (xs : list A) (body : A → M S unit) :
  (∀ x s s', x ∈ xs → body x s = Ok tt s' → R s s') →
  ∀ s s', for_each xs body s = Ok tt s' → R s s'.
Proof.
  induction xs as [|x xs IH]; intros Hbody s s' Hrun; simpl in Hrun.
  - apply ret_Ok in Hrun as [_ ->]. reflexivity.
  - apply bind_Ok in Hrun as ([] & s1 & H1 & H2).
    transitivity s1.
    + eapply Hbody; [left | done].
    + eapply IH; [|done]. intros y t t' Hy. apply Hbody. by right.
Qed.

Lemma for_range_rel {S : Type} (R : relation S) `{!PreOrder R}
    (body : Z → M S unit) :
  (∀ i s s', body i s = Ok tt s' → R s s') →
  ∀ n i s s', for_range n i body s = Ok tt s' → R s s'.
Proof.
  intros Hbody. induction n as [|n IH]; intros i s s' Hrun; simpl in Hrun.
  - apply ret_Ok in Hrun as [_ ->]. reflexivity.
  - apply bind_Ok in Hrun as ([] & s1 & H1 & H2).
    transitivity s1; eauto.
Qed.

(** ** The two inner loops in closed form *)

Lemma push_vertex_at_Ok B V A stride index g g' :
  push_vertex_at B V A stride index g = Ok tt g' ↔
  ∃ v, vertex_of B V A stride index = Some v ∧ g' = add_vertices [v] g.
Proof.
  unfold push_vertex_at, vertex_of, push_vertex. split.
  - intros H. inv_ok.
    repeat match goal with H : _ = Some _ |- _ => rewrite H; clear H end.
    simpl. eauto.
  - intros (v & Hv & ->).
    destruct (read_float _ _ 0) as [e0|]; [|done].
    destruct (read_float _ _ 1) as [e1|]; [|done].
    destruct (read_float _ _ 2) as [e2|]; [|done].
    simpl in Hv. by inversion Hv.
Qed.

Lemma push_index_at_Ok B V A stride index g g' :
  push_index_at B V A stride index g = Ok tt g' ↔
  ∃ x, index_of B V A stride index = Some x ∧ g' = add_indices [x] g.
Proof.
  unfold push_index_at, index_of, push_index. split.
  - intros H. inv_ok.
    match goal with H : _ = Some _ |- _ => rewrite H end. simpl. eauto.
  - intros (v & Hv & ->).
    destruct (read_u16 _ _) as [e0|]; [|done].
    simpl in Hv. by inversion Hv.
Qed.

Lemma add_vertices_nil g : add_vertices [] g = g.
Proof. destruct g. unfold add_vertices. simpl. by rewrite app_nil_r. Qed.

Lemma add_vertices_app vs ws g :
  add_vertices ws (add_vertices vs g) = add_vertices (vs ++ ws) g.
Proof. unfold add_vertices. simpl. by rewrite app_assoc. Qed.

Lemma add_indices_nil g : add_indices [] g = g.
Proof. destruct g. unfold add_indices. simpl. by rewrite app_nil_r. Qed.

Lemma add_indices_app xs ys g :
  add_indices ys (add_indices xs g) = add_indices (xs ++ ys) g.
Proof. unfold add_indices. simpl. by rewrite app_assoc. Qed.

Lemma seqZ_S_head (m : Z) (n : nat) :
  seqZ m (Z.of_nat (S n)) = m :: seqZ (m + 1) (Z.of_nat n).
Proof.
  rewrite seqZ_cons by lia. f_equal. f_equal; lia.
Qed.

Lemma vertex_loop_Ok B V A stride n i g g' :
  for_range n i (push_vertex_at B V A stride) g = Ok tt g' ↔
  ∃ vs, Forall2 (fun k v => vertex_of B V A stride k = Some v) (seqZ i (Z.of_nat n)) vs ∧
        g' = add_vertices vs g.
Proof.
  revert i g. induction n as [|n IH]; intros i g.
  - simpl. rewrite ret_Ok. split.
    + intros [_ ->]. exists []. split; [constructor | by rewrite add_vertices_nil].
    + intros (vs & Hvs & ->). apply Forall2_nil_inv_l in Hvs as ->.
      by rewrite add_vertices_nil.
  - rewrite seqZ_S_head. cbn [for_range]. rewrite bind_Ok. split.
    + intros ([] & g1 & H1 & H2).
      apply push_vertex_at_Ok in H1 as (v & Hv & ->).
      apply IH in H2 as (vs & Hvs & ->).
      exists (v :: vs). split; [by constructor | by rewrite add_vertices_app].
    + intros (vs & Hvs & ->).
      apply Forall2_cons_inv_l in Hvs as (v & vs' & Hv & Hvs & ->).
      exists tt, (add_vertices [v] g). split.
      * apply push_vertex_at_Ok. eauto.
      * apply IH. exists vs'. split; [done | by rewrite add_vertices_app].
Qed.

Lemma index_loop_Ok B V A stride n i g g' :
  for_range n i (push_index_at B V A stride) g = Ok tt g' ↔
  ∃ xs, Forall2 (fun k x => index_of B V A stride k = Some x) (seqZ i (Z.of_nat n)) xs ∧
        g' = add_indices xs g.
Proof.
  revert i g. induction n as [|n IH]; intros i g.
  - simpl. rewrite ret_Ok. split.
    + intros [_ ->]. exists []. split; [constructor | by rewrite add_indices_nil].
    + intros (vs & Hvs & ->). apply Forall2_nil_inv_l in Hvs as ->.
      by rewrite add_indices_nil.
  - rewrite seqZ_S_head. cbn [for_range]. rewrite bind_Ok. split.
    + intros ([] & g1 & H1 & H2).
      apply push_index_at_Ok in H1 as (v & Hv & ->).
      apply IH in H2 as (vs & Hvs & ->).
      exists (v :: vs). split; [by constructor | by rewrite add_indices_app].
    + intros (vs & Hvs & ->).
      apply Forall2_cons_inv_l in Hvs as (v & vs' & Hv & Hvs & ->).
      exists tt, (add_indices [v] g). split.
      * apply push_index_at_Ok. eauto.
      * apply IH. exists vs'. split; [done | by rewrite add_indices_app].
Qed.

(** ** One primitive in closed form *)

Lemma seqZ_to_nat (m : Z) (c : N) : seqZ m (Z.of_nat (N.to_nat c)) = seqZ m (Z.of_N c).
Proof. by rewrite N_nat_Z. Qed.

Lemma accessor_data_Some model i a v b :
  accessor_data model i = Some (a, v, b) ↔
  vec_at (accessors model) i = Some a ∧
  vec_at (bufferViews model) (acc_bufferView a) = Some v ∧
  vec_at (buffers model) (bv_buffer v) = Some b.
Proof.
  unfold accessor_data. split.
  - intros H.
    destruct (vec_at (accessors model) i) as [a'|]; [simpl in H|done].
    destruct (vec_at (bufferViews model) (acc_bufferView a')) as [v'|] eqn:Ev;
      [simpl in H|done].
    destruct (vec_at (buffers model) (bv_buffer v')) as [b'|] eqn:Eb;
      [simpl in H|done].
    inversion H; subst. done.
  - intros (-> & Hv & Hb). simpl. rewrite Hv. simpl. by rewrite Hb.
Qed.

Lemma load_primitive_Ok model tr prim g g' :
  load_primitive model tr prim g = Ok tt g' ↔
  ∃ pa pv pb ia iv ib vs xs,
    accessor_data model (attr_at (attributes prim) "POSITION") = Some (pa, pv, pb) ∧
    accessor_data model (indices prim) = Some (ia, iv, ib) ∧
    Forall2 (fun k v => vertex_of pb pv pa (size_t (ByteStride pa pv)) k = Some v)
            (seqZ 0 (Z.of_N (acc_count pa))) vs ∧
    Forall2 (fun k x => index_of ib iv ia (size_t (ByteStride ia iv)) k = Some x)
            (seqZ 0 (Z.of_N (acc_count ia))) xs ∧
    g' = {| vertices := vertices g ++ vs;
            indicies := indicies g ++ xs;
            drawObjects := drawObjects g ++
              [ {| indexCount := uint32_t (Z.of_N (acc_count ia));
                   firstIndex := uint32_t (vec_size (indicies g));
                   vertexOffset := uint32_t (vec_size (vertices g));
                   transform := tr |} ] |}.
Proof.
  unfold load_primitive. split.
  - intros H. inv_ok.
    match goal with H : for_range _ _ (push_vertex_at _ _ _ _) _ = _ |- _ =>
      apply vertex_loop_Ok in H as (vs & Hvs & ->) end.
    match goal with H : for_range _ _ (push_index_at _ _ _ _) _ = _ |- _ =>
      apply index_loop_Ok in H as (xs & Hxs & ->) end.
    rewrite seqZ_to_nat in Hvs, Hxs.
    unfold push_draw in H. apply modify_Ok in H as ->.
    do 6 eexists. exists vs, xs.
    split; [by apply accessor_data_Some|].
    split; [by apply accessor_data_Some|].
    split; [exact Hvs|]. split; [exact Hxs|].
    reflexivity.
  - intros (pa & pv & pb & ia & iv & ib & vs & xs & Hp & Hi & Hvs & Hxs & ->).
    apply accessor_data_Some in Hp as (Hp1 & Hp2 & Hp3).
    apply accessor_data_Some in Hi as (Hi1 & Hi2 & Hi3).
    repeat (apply bind_Ok; eexists _, _; split;
            [first [by apply checked_Ok | by apply gets_Ok | reflexivity] |]).
    apply bind_Ok. exists tt, (add_vertices vs g). split.
    { apply vertex_loop_Ok. exists vs. by rewrite seqZ_to_nat. }
    apply bind_Ok. exists tt, (add_indices xs (add_vertices vs g)). split.
    { apply index_loop_Ok. exists xs. by rewrite seqZ_to_nat. }
    reflexivity.
Qed.

(** A primitive appends to the three vectors, and to [drawObjects] exactly
    one command. *)
Lemma load_primitive_appended model tr prim g g' :
  load_primitive model tr prim g = Ok tt g' →
  ∃ vs xs c, appended g g' vs xs [c] ∧
    transform c = tr ∧
    indexCount c ≤ Z.of_nat (length xs) ∧
    firstIndex c ≤ vec_size (indicies g) ∧
    vertexOffset c ≤ vec_size (vertices g).
Proof.
  intros H. apply load_primitive_Ok in H
    as (pa & pv & pb & ia & iv & ib & vs & xs & _ & _ & Hvs & Hxs & ->).
  eexists vs, xs, _. split; [by repeat split|]. simpl.
  split; [done|].
  apply Forall2_length in Hxs. rewrite length_seqZ in Hxs.
  unfold uint32_t, vec_size. rewrite <- Hxs.
  repeat split.
  - rewrite Z2Nat.id by lia. apply Z.mod_le; lia.
  - apply Z.mod_le; lia.
  - apply Z.mod_le; lia.
Qed.

(** ** A relation respected by every primitive is respected by the traversal *)

Lemma load_node_mesh_rel (R : relation Globals) `{!PreOrder R} model :
  (∀ tr prim g g', load_primitive model tr prim g = Ok tt g' → R g g') →
  ∀ node tr g g', load_node_mesh model node tr g = Ok tt g' → R g g'.
Proof.
  intros Hprim node tr g g' H. unfold load_node_mesh in H.
  destruct (decide (0 ≤ mesh node)).
  - inv_ok. eapply (for_each_rel R); [|done]. intros; by eapply Hprim.
  - apply ret_Ok in H as [_ ->]. reflexivity.
Qed.

Lemma load_gltf_node_rel (R : relation Globals) `{!PreOrder R} model :
  (∀ tr prim g g', load_primitive model tr prim g = Ok tt g' → R g g') →
  ∀ fuel nodeId tr g g', load_gltf_node fuel model nodeId tr g = Ok tt g' → R g g'.
Proof.
  intros Hprim. induction fuel as [|fuel IH]; intros nodeId tr g g' H; [done|].
  cbn [load_gltf_node] in H. inv_ok.
  match goal with H : load_node_mesh _ _ _ _ = _ |- _ =>
    apply (load_node_mesh_rel R model Hprim) in H end.
  etransitivity; [done|].
  eapply (for_each_rel R); [|done]. intros c s s' _ Hc. eapply IH, Hc.
Qed.

Lemma load_gltf_model_rel (R : relation Globals) `{!PreOrder R} l :
  (∀ tr prim g g', load_primitive (loaded_model l) tr prim g = Ok tt g' → R g g') →
  ∀ fuel g g', load_gltf_model fuel l g = Ok tt g' → R g g'.
Proof.
  intros Hprim fuel g g' H. unfold load_gltf_model in H.
  destruct (str_empty (loaded_warn l)); simpl in H;
  destruct (str_empty (loaded_err l)); simpl in H; try done;
  destruct (loaded_ret l); simpl in H; try done; inv_ok;
  (eapply (for_each_rel R); [|done]); intros c s s' _ Hc;
  eapply (load_gltf_node_rel R), Hc; done.
Qed.

(** ** Growth of the buffers *)

Lemma in_buffers_appended g g' vs xs ds c :
  appended g g' vs xs ds → in_buffers g c → in_buffers g' c.
Proof.
  intros (Hv & Hi & _) [H1 H2]. unfold in_buffers, vec_size in *.
  rewrite Hv, Hi, !length_app. lia.
Qed.

#[local] Instance grows_preorder : PreOrder grows.
Proof.
  split.
  - intros g. exists [], [], []. unfold appended.
    rewrite !app_nil_r. by repeat split.
  - intros g1 g2 g3 (vs & xs & ds & Ha & Hb) (vs' & xs' & ds' & Ha' & Hb').
    exists (vs ++ vs'), (xs ++ xs'), (ds ++ ds'). split.
    + destruct Ha as (E1 & E2 & E3), Ha' as (E1' & E2' & E3').
      unfold appended. rewrite E1', E2', E3', E1, E2, E3.
      by rewrite !app_assoc.
    + apply Forall_app. split; [|done].
      eapply Forall_impl; [done|]. intros c. by eapply in_buffers_appended.
Qed.

Lemma load_primitive_grows model tr prim g g' :
  load_primitive model tr prim g = Ok tt g' → grows g g'.
Proof.
  intros H. apply load_primitive_appended in H
    as (vs & xs & c & Ha & _ & Hn & Hf & Hv).
  exists vs, xs, [c]. split; [done|]. apply Forall_singleton.
  destruct Ha as (Ev & Ei & _). unfold in_buffers, vec_size in *.
  rewrite Ev, Ei, !length_app. lia.
Qed.

Lemma load_primitive_sizes model tr prim g g' :
  load_primitive model tr prim g = Ok tt g' →
  ∃ pa pv pb ia iv ib,
    accessor_data model (attr_at (attributes prim) "POSITION") = Some (pa, pv, pb) ∧
    accessor_data model (indices prim) = Some (ia, iv, ib) ∧
    vec_size (vertices g') = vec_size (vertices g) + Z.of_N (acc_count pa) ∧
    vec_size (indicies g') = vec_size (indicies g) + Z.of_N (acc_count ia).
Proof.
  intros H. apply load_primitive_Ok in H
    as (pa & pv & pb & ia & iv & ib & vs & xs & Hp & Hi & Hvs & Hxs & ->).
  exists pa, pv, pb, ia, iv, ib. repeat split; try done; simpl.
  - apply Forall2_length in Hvs. rewrite length_seqZ in Hvs.
    unfold vec_size. rewrite length_app. lia.
  - apply Forall2_length in Hxs. rewrite length_seqZ in Hxs.
    unfold vec_size. rewrite length_app. lia.
Qed.

(** C6.  Flattening only appends.  One primitive lengthens the vertex
    buffer by the count of its position accessor and the index buffer by the
    count of its index accessor; a visit of a node (with everything below it)
    leaves the three vectors as extensions of what they were, and every draw
    command it added satisfies [firstIndex + indexCount <= |indicies|] and
    [vertexOffset <= |vertices|]; a command that satisfies these keeps
    satisfying them however the buffers are extended later; hence after
    [load_gltf_model] all of [drawObjects] does. *)
Theorem buffers_only_grow :
  (∀ model tr prim g g',
     load_primitive model tr prim g = Ok tt g' →
     ∃ pa pv pb ia iv ib,
       accessor_data model (attr_at (attributes prim) "POSITION") = Some (pa, pv, pb) ∧
       accessor_data model (indices prim) = Some (ia, iv, ib) ∧
       vec_size (vertices g') = vec_size (vertices g) + Z.of_N (acc_count pa) ∧
       vec_size (indicies g') = vec_size (indicies g) + Z.of_N (acc_count ia)) ∧
  (∀ fuel model nodeId tr g g',
     load_gltf_node fuel model nodeId tr g = Ok tt g' →
     ∃ vs ixs ds, appended g g' vs ixs ds ∧ Forall (in_buffers g') ds) ∧
  (∀ g g' vs ixs ds c,
     appended g g' vs ixs ds → in_buffers g c → in_buffers g' c) ∧
  (∀ fuel l g',
     load_gltf_model fuel l initial_globals = Ok tt g' →
     Forall (in_buffers g') (drawObjects g')).
Proof.
  split; [|split; [|split]].
  - apply load_primitive_sizes.
  - intros fuel model nodeId tr g g' H.
    eapply (load_gltf_node_rel grows model), H.
    apply load_primitive_grows.
  - intros g g' vs ixs ds c. apply in_buffers_appended.
  - intros fuel l g' H.
    assert (grows initial_globals g') as (vs & xs & ds & (_ & _ & Hd) & Hb).
    { eapply (load_gltf_model_rel grows l), H. intros tr prim.
      apply load_primitive_grows. }
    simpl in Hd. by rewrite Hd.
Qed.

(** ** Indices are sixteen-bit values *)

Lemma byte_val_bound b : 0 ≤ byte_val b < 256.
Proof.
  unfold byte_val. pose proof (Byte.to_N_bounded b) as H. lia.
Qed.

Lemma read_u16_bound data base x : read_u16 data base = Some x → is_u16 x.
Proof.
  unfold read_u16, is_u16.
  destruct (read_bytes data base 2) as [[|b0 [|b1 [|]]]|]; try done.
  intros [= <-].
  pose proof (byte_val_bound b0). pose proof (byte_val_bound b1). lia.
Qed.

Lemma index_of_bound B V A stride k x : index_of B V A stride k = Some x → is_u16 x.
Proof.
  unfold index_of. destruct (read_u16 _ _) as [y|] eqn:E; [|done].
  intros [= <-]. apply read_u16_bound in E. unfold is_u16, uint32_t in *.
  rewrite Z.mod_small; lia.
Qed.

#[local] Instance keeps_u16_preorder :
  PreOrder (fun g g' => indices_u16 g → indices_u16 g').
Proof. split; [by intros g | intros g1 g2 g3 H1 H2 H; auto]. Qed.

Lemma load_primitive_u16 model tr prim g g' :
  load_primitive model tr prim g = Ok tt g' → indices_u16 g → indices_u16 g'.
Proof.
  intros H Hg. apply load_primitive_Ok in H
    as (pa & pv & pb & ia & iv & ib & vs & xs & _ & _ & _ & Hxs & ->).
  unfold indices_u16 in *. simpl. apply Forall_app. split; [done|].
  clear Hg. induction Hxs; constructor; [by eapply index_of_bound | done].
Qed.

(** ** Vertices *)

Lemma vertex_of_Some B V A stride k v :
  vertex_of B V A stride k = Some v →
  color v = Vec3 f0_7 f0_7 f0_7 ∧
  ∃ e0 e1 e2,
    read_float (buf_data B) (element_offset V A stride k) 0 = Some e0 ∧
    read_float (buf_data B) (element_offset V A stride k) 1 = Some e1 ∧
    read_float (buf_data B) (element_offset V A stride k) 2 = Some e2 ∧
    pos v = Vec3 e0 e1 e2.
Proof.
  unfold vertex_of.
  destruct (read_float _ _ 0) as [e0|]; [|done].
  destruct (read_float _ _ 1) as [e1|]; [|done].
  destruct (read_float _ _ 2) as [e2|]; [|done].
  simpl. intros [= <-]. simpl. split; [done|]. by exists e0, e1, e2.
Qed.

(** C7.  The vertices a primitive appends are, in order, one per element of
    its POSITION accessor; the vertex of element [i] has as position the
    three floats stored from byte
    [bufferView.byteOffset + accessor.byteOffset + stride * i] of the buffer
    on, and as colour [(0.7, 0.7, 0.7)]. *)
Theorem appended_vertices model tr prim g g' :
  load_primitive model tr prim g = Ok tt g' →
  ∃ pa pv pb vs,
    accessor_data model (attr_at (attributes prim) "POSITION") = Some (pa, pv, pb) ∧
    vertices g' = vertices g ++ vs ∧
    length vs = N.to_nat (acc_count pa) ∧
    ∀ (i : nat) v, vs !! i = Some v →
      color v = Vec3 f0_7 f0_7 f0_7 ∧
      ∃ e0 e1 e2,
        let base := Z.of_N (bv_byteOffset pv) + Z.of_N (acc_byteOffset pa)
                    + size_t (size_t (ByteStride pa pv) * Z.of_nat i) in
        read_float (buf_data pb) base 0 = Some e0 ∧
        read_float (buf_data pb) base 1 = Some e1 ∧
        read_float (buf_data pb) base 2 = Some e2 ∧
        pos v = Vec3 e0 e1 e2.
Proof.
  intros H. apply load_primitive_Ok in H
    as (pa & pv & pb & ia & iv & ib & vs & xs & Hp & _ & Hvs & _ & ->).
  exists pa, pv, pb, vs. split; [done|]. split; [done|]. split.
  - apply Forall2_length in Hvs. rewrite length_seqZ in Hvs. lia.
  - intros i v Hv.
    destruct (Forall2_lookup_r _ _ _ _ _ Hvs Hv) as (k & Hk & Hkv).
    apply lookup_seqZ in Hk as [-> _]. rewrite Z.add_0_l in Hkv.
    by apply vertex_of_Some in Hkv.
Qed.

(** ** Draw commands *)

(** C2, as the code has it.  A primitive appends exactly one draw command.
    Its three counters are [uint32_t] conversions: [indexCount] is the count
    of the index accessor modulo [2^32], [firstIndex] and [vertexOffset] are
    the lengths the index and vertex buffers had before the primitive, modulo
    [2^32]. *)
Theorem draw_command_of_primitive model tr prim g g' :
  load_primitive model tr prim g = Ok tt g' →
  ∃ ia iv ib cmd,
    accessor_data model (indices prim) = Some (ia, iv, ib) ∧
    drawObjects g' = drawObjects g ++ [cmd] ∧
    indexCount cmd = Z.of_N (acc_count ia) mod 2 ^ 32 ∧
    firstIndex cmd = vec_size (indicies g) mod 2 ^ 32 ∧
    vertexOffset cmd = vec_size (vertices g) mod 2 ^ 32.
Proof.
  intros H. apply load_primitive_Ok in H
    as (pa & pv & pb & ia & iv & ib & vs & xs & _ & Hi & _ & _ & ->).
  exists ia, iv, ib. eexists. split; [done|]. simpl. split; [reflexivity|].
  by repeat split.
Qed.

(** ** The node's own matrix, and nodes without a mesh *)

Lemma vec_at_lookup {A : Type} (v : list A) (i : nat) :
  vec_at v (Z.of_nat i) = v !! i.
Proof.
  unfold vec_at. rewrite decide_True by lia. by rewrite Nat2Z.id.
Qed.

Lemma local_transform_16 node :
  vec_size (matrix node) = 16 →
  ∃ a0 a1 a2 a3 a4 a5 a6 a7 a8 a9 a10 a11 a12 a13 a14 a15,
    matrix node = [a0; a1; a2; a3; a4; a5; a6; a7; a8; a9; a10; a11; a12; a13; a14; a15] ∧
    local_transform node =
      Some (mat4_of_16 a0 a1 a2 a3 a4 a5 a6 a7 a8 a9 a10 a11 a12 a13 a14 a15).
Proof.
  intros Hlen. unfold local_transform. rewrite decide_True by done.
  unfold vec_size in Hlen.
  destruct (matrix node) as [|a0 [|a1 [|a2 [|a3 [|a4 [|a5 [|a6 [|a7 [|a8 [|a9
    [|a10 [|a11 [|a12 [|a13 [|a14 [|a15 [|]]]]]]]]]]]]]]]]]; simpl in Hlen; try lia.
  by exists a0, a1, a2, a3, a4, a5, a6, a7, a8, a9, a10, a11, a12, a13, a14, a15.
Qed.

Lemma local_transform_other node :
  vec_size (matrix node) ≠ 16 → local_transform node = Some mat4_identity.
Proof. intros H. unfold local_transform. by rewrite decide_False. Qed.

Lemma local_transform_total node : ∃ m, local_transform node = Some m.
Proof.
  destruct (decide (vec_size (matrix node) = 16)) as [H|H].
  - destruct (local_transform_16 node H)
      as (a0&a1&a2&a3&a4&a5&a6&a7&a8&a9&a10&a11&a12&a13&a14&a15&_&E). eauto.
  - rewrite (local_transform_other node H). eauto.
Qed.

(** ** Commands that return or are undefined *)

Lemma settled_weaken {S A : Type} (P Q : Prop) (r : outcome S A) :
  (P → Q) → settled Q r → settled P r.
Proof. intros HPQ. destruct r; simpl; tauto. Qed.

Lemma settled_bind {S A B : Type} P (m : M S A) (k : A → M S B) s :
  settled P (m s) →
  (∀ a s1, m s = Ok a s1 → settled P (k a s1)) →
  settled P (bind m k s).
Proof. unfold bind. destruct (m s); simpl; eauto. Qed.

Lemma settled_Ok {S A : Type} (P : Prop) (r : outcome S A) :
  settled P r → P → ∃ a s, r = Ok a s.
Proof. destruct r; simpl; try tauto. eauto. Qed.

Lemma settled_checked {S A : Type} (P : Prop) (o : option A) (s : S) :
  (P → is_Some o) → settled P (checked o s).
Proof.
  unfold checked. destruct o; simpl; [done|]. intros H HP.
  by destruct (H HP).
Qed.

Lemma for_each_settled {S A : Type} P (xs : list A) (body : A → M S unit) :
  (∀ x, x ∈ xs → ∀ s, settled P (body x s)) →
  ∀ s, settled P (for_each xs body s).
Proof.
  induction xs as [|x xs IH]; intros Hbody s; simpl; [done|].
  apply settled_bind.
  - apply Hbody. by left.
  - intros _ s1 _. apply IH. intros y Hy. apply Hbody. by right.
Qed.

Lemma for_range_settled {S : Type} P (body : Z → M S unit) n i :
  (∀ k, i ≤ k < i + Z.of_nat n → ∀ s, settled P (body k s)) →
  ∀ s, settled P (for_range n i body s).
Proof.
  revert i. induction n as [|n IH]; intros i Hbody s; simpl; [done|].
  apply settled_bind.
  - apply Hbody. lia.
  - intros _ s1 _. apply IH. intros k Hk. apply Hbody. lia.
Qed.

Lemma push_vertex_at_settled B V A stride k g :
  settled (is_Some (vertex_of B V A stride k)) (push_vertex_at B V A stride k g).
Proof.
  destruct (push_vertex_at B V A stride k g) as [[] g'| | |] eqn:E; simpl; try done.
  - unfold push_vertex_at in E.
    repeat (unfold bind at 1 in E; unfold checked at 1 in E;
            destruct (read_float _ _ _); [|done]). done.
  - intros [v Hv].
    assert (push_vertex_at B V A stride k g = Ok tt (add_vertices [v] g)) as E'.
    { apply push_vertex_at_Ok. eauto. }
    congruence.
  - unfold push_vertex_at in E.
    repeat (unfold bind at 1 in E; unfold checked at 1 in E;
            destruct (read_float _ _ _); [|done]). done.
Qed.

Lemma push_index_at_settled B V A stride k g :
  settled (is_Some (index_of B V A stride k)) (push_index_at B V A stride k g).
Proof.
  destruct (push_index_at B V A stride k g) as [[] g'| | |] eqn:E; simpl; try done.
  - unfold push_index_at in E.
    unfold bind at 1 in E; unfold checked at 1 in E.
    destruct (read_u16 _ _); done.
  - intros [v Hv].
    assert (push_index_at B V A stride k g = Ok tt (add_indices [v] g)) as E'.
    { apply push_index_at_Ok. eauto. }
    congruence.
  - unfold push_index_at in E.
    unfold bind at 1 in E; unfold checked at 1 in E.
    destruct (read_u16 _ _); done.
Qed.

(** What a primitive's being in range gives, once it is assumed. *)
Ltac in_range HQ :=
  let Hp := fresh in let Hi := fresh in
  intros (?&?&?&?&?&?&Hp&Hi&?&?)%HQ;
  apply accessor_data_Some in Hp as (?&?&?);
  apply accessor_data_Some in Hi as (?&?&?);
  simplify_eq.

Lemma load_primitive_settled model tr prim g :
  settled (primitive_in_range model prim) (load_primitive model tr prim g).
Proof.
  unfold load_primitive.
  set (Q := primitive_in_range model prim).
  assert (HQ : Q → primitive_in_range model prim) by done. clearbody Q.
  apply settled_bind.
  { apply settled_checked. in_range HQ. by eexists. }
  intros pa ? [Hpa ->]%checked_Ok.
  apply settled_bind; [done|]. intros _ ? [_ ->]%ret_Ok.
  apply settled_bind.
  { apply settled_checked. in_range HQ. by eexists. }
  intros pv ? [Hpv ->]%checked_Ok.
  apply settled_bind.
  { apply settled_checked. in_range HQ. by eexists. }
  intros pb ? [Hpb ->]%checked_Ok.
  apply settled_bind.
  { apply settled_checked. in_range HQ. by eexists. }
  intros ia ? [Hia ->]%checked_Ok.
  apply settled_bind; [done|]. intros _ ? [_ ->]%ret_Ok.
  apply settled_bind.
  { apply settled_checked. in_range HQ. by eexists. }
  intros iv ? [Hiv ->]%checked_Ok.
  apply settled_bind.
  { apply settled_checked. in_range HQ. by eexists. }
  intros ib ? [Hib ->]%checked_Ok.
  apply settled_bind; [done|]. intros ? ? [-> ->]%gets_Ok.
  apply settled_bind; [done|]. intros ? ? [-> ->]%gets_Ok.
  apply settled_bind.
  { apply for_range_settled. intros k Hk s.
    eapply settled_weaken, push_vertex_at_settled.
    in_range HQ. match goal with H : ∀ k, _ → is_Some (vertex_of _ _ _ _ _) |- _ =>
      apply H end. lia. }
  intros _ s1 _.
  apply settled_bind; [|done].
  apply for_range_settled. intros k Hk s.
  eapply settled_weaken, push_index_at_settled.
  in_range HQ. match goal with H : ∀ k, _ → is_Some (index_of _ _ _ _ _) |- _ =>
    apply H end. lia.
Qed.

Lemma load_primitive_benign model tr prim : benign (load_primitive model tr prim).
Proof.
  intros s. pose proof (load_primitive_settled model tr prim s) as H.
  destruct (load_primitive model tr prim s); simpl in *; tauto.
Qed.

(** ** Throwing *)

Lemma bind_never_throws {S A B : Type} (m : M S A) (k : A → M S B) :
  never_throws m → (∀ a, never_throws (k a)) → never_throws (bind m k).
Proof.
  intros Hm Hk s msg s'. unfold bind.
  destruct (m s) as [a s1|msg1 s1| |] eqn:E; try done.
  - apply Hk.
  - by destruct (Hm s msg1 s1).
Qed.

Lemma checked_never_throws {S A : Type} (o : option A) :
  never_throws (@checked S A o).
Proof. intros s msg s'. unfold checked. by destruct o. Qed.

Lemma for_each_never_throws {S A : Type} (xs : list A) (body : A → M S unit) :
  (∀ x, never_throws (body x)) → never_throws (for_each xs body).
Proof.
  intros Hbody. induction xs as [|x xs IH]; simpl; [done|].
  by apply bind_never_throws.
Qed.

Lemma for_range_never_throws {S : Type} n i (body : Z → M S unit) :
  (∀ k, never_throws (body k)) → never_throws (for_range n i body).
Proof.
  intros Hbody. revert i. induction n as [|n IH]; intros i; simpl; [done|].
  by apply bind_never_throws.
Qed.

Lemma load_primitive_never_throws model tr prim :
  never_throws (load_primitive model tr prim).
Proof.
  intros s msg s' E. pose proof (load_primitive_benign model tr prim s) as H.
  by rewrite E in H.
Qed.

Lemma load_gltf_node_never_throws fuel model nodeId tr :
  never_throws (load_gltf_node fuel model nodeId tr).
Proof.
  revert nodeId tr. induction fuel as [|fuel IH]; intros nodeId tr; [done|].
  cbn [load_gltf_node].
  apply bind_never_throws; [apply checked_never_throws|]. intros node.
  apply bind_never_throws; [apply checked_never_throws|]. intros m.
  apply bind_never_throws.
  - unfold load_node_mesh. destruct (decide _); [|done].
    apply bind_never_throws; [apply checked_never_throws|]. intros ?.
    apply bind_never_throws; [done|]. intros _.
    apply for_each_never_throws. intros ?. apply load_primitive_never_throws.
  - intros _. apply for_each_never_throws. intros c. apply IH.
Qed.

Lemma str_empty_true s : str_empty s = true ↔ s = ""%string.
Proof. by destruct s. Qed.

Lemma load_gltf_model_cases fuel l g :
  load_gltf_model fuel l g =
  if negb (str_empty (loaded_err l)) then Threw "glTF parsing error" g
  else if negb (loaded_ret l) then Threw "Fail to parse glTF" g
  else (let* scene := checked (vec_at (scenes (loaded_model l))
                                 (defaultScene (loaded_model l))) in
        for_each (scene_nodes scene)
          (fun id => load_gltf_node fuel (loaded_model l) id mat4_identity) >>
        spdlog "======== glTF load finished ========") g.
Proof.
  unfold load_gltf_model.
  destruct (str_empty (loaded_warn l)), (str_empty (loaded_err l)), (loaded_ret l);
    reflexivity.
Qed.

(** C3.  [load_gltf_model] throws exactly when the loader left a non-empty
    error string or returned [false]; the warning string plays no part; and
    a throw leaves the three vectors as they were (empty, when [main] calls
    it). *)
Theorem load_gltf_model_throws fuel l g :
  ((∃ msg g', load_gltf_model fuel l g = Threw msg g') ↔
   (loaded_err l ≠ ""%string ∨ loaded_ret l = false)) ∧
  (∀ msg g', load_gltf_model fuel l g = Threw msg g' → g' = g).
Proof.
  rewrite load_gltf_model_cases.
  destruct (str_empty (loaded_err l)) eqn:Eerr; simpl.
  - apply str_empty_true in Eerr.
    destruct (loaded_ret l) eqn:Eret; simpl.
    + assert (Hrest : ∀ msg g',
        (let* scene := checked (vec_at (scenes (loaded_model l))
                                  (defaultScene (loaded_model l))) in
         for_each (scene_nodes scene)
           (fun id => load_gltf_node fuel (loaded_model l) id mat4_identity) >>
         spdlog "======== glTF load finished ========") g ≠ Threw msg g').
      { intros msg g'. revert g msg g'.
        apply bind_never_throws; [apply checked_never_throws|]. intros sc.
        apply bind_never_throws; [|done].
        apply for_each_never_throws. intros c. apply load_gltf_node_never_throws. }
      split.
      * split.
        -- intros (msg & g' & H). by apply Hrest in H.
        -- intros [H|H]; done.
      * intros msg g' H. by apply Hrest in H.
    + split.
      * split; [by right | eauto].
      * by intros msg g' [= _ <-].
  - split.
    + split; [|eauto]. intros _. left. intros E. by rewrite E in Eerr.
    + by intros msg g' [= _ <-].
Qed.

(** ** Accumulated transforms *)

Lemma local_transform_node_matrix node :
  local_transform node = Some (node_matrix node).
Proof.
  destruct (decide (vec_size (matrix node) = 16)) as [H|H].
  - destruct (local_transform_16 node H)
      as (a0&a1&a2&a3&a4&a5&a6&a7&a8&a9&a10&a11&a12&a13&a14&a15&Em&E).
    rewrite E. unfold node_matrix. by rewrite Em.
  - rewrite (local_transform_other node H). unfold node_matrix.
    unfold vec_size in H.
    destruct (matrix node) as [|a0 [|a1 [|a2 [|a3 [|a4 [|a5 [|a6 [|a7 [|a8 [|a9
      [|a10 [|a11 [|a12 [|a13 [|a14 [|a15 [|]]]]]]]]]]]]]]]]]; try done.
Qed.

#[local] Instance adds_draws_preorder P : PreOrder (adds_draws P).
Proof.
  split.
  - intros g. exists []. by rewrite app_nil_r.
  - intros g1 g2 g3 (ds & E & H) (ds' & E' & H').
    exists (ds ++ ds'). rewrite E', E, app_assoc. split; [done|].
    by apply Forall_app.
Qed.

Lemma adds_draws_impl (P Q : DrawCmd → Prop) g g' :
  (∀ c, P c → Q c) → adds_draws P g g' → adds_draws Q g g'.
Proof.
  intros HPQ (ds & E & H). exists ds. split; [done|]. by eapply Forall_impl.
Qed.

Lemma load_node_mesh_draws model node tr g g' :
  load_node_mesh model node tr g = Ok tt g' →
  adds_draws (fun c => transform c = tr) g g'.
Proof.
  unfold load_node_mesh. destruct (decide (0 ≤ mesh node)); intros H.
  - inv_ok. eapply (for_each_rel (adds_draws _)), H.
    intros prim s s' _ Hp. apply load_primitive_appended in Hp
      as (vs & xs & c & (_ & _ & Ed) & Etr & _).
    exists [c]. split; [done|]. by apply Forall_singleton.
  - apply ret_Ok in H as [_ ->]. reflexivity.
Qed.

Lemma load_gltf_node_step fuel model nodeId tr g g' :
  load_gltf_node (S fuel) model nodeId tr g = Ok tt g' →
  ∃ node g1,
    vec_at (nodes model) nodeId = Some node ∧
    load_node_mesh model node (mat4_mul (node_matrix node) tr) g = Ok tt g1 ∧
    for_each (children node)
      (fun c => load_gltf_node fuel model c (mat4_mul (node_matrix node) tr)) g1
    = Ok tt g'.
Proof.
  cbn [load_gltf_node]. intros H. inv_ok.
  match goal with H : local_transform _ = Some _ |- _ =>
    rewrite local_transform_node_matrix in H; injection H as <- end.
  eauto.
Qed.

Lemma load_gltf_node_paths model fuel nodeId tr g g' :
  load_gltf_node fuel model nodeId tr g = Ok tt g' →
  adds_draws (fun cmd => ∃ path, descent model nodeId path ∧
                accumulated model tr path = Some (transform cmd)) g g'.
Proof.
  revert nodeId tr g g'. induction fuel as [|fuel IH]; intros nodeId tr g g' H; [done|].
  apply load_gltf_node_step in H as (node & g1 & Hnode & Hmesh & Hkids).
  transitivity g1.
  - apply load_node_mesh_draws in Hmesh. eapply adds_draws_impl, Hmesh.
    intros cmd Hcmd. exists [nodeId]. split; [constructor|].
    simpl. rewrite Hnode. simpl. by rewrite Hcmd.
  - eapply (for_each_rel (adds_draws _)), Hkids.
    intros c s s' Hc Hrun. apply IH in Hrun. eapply adds_draws_impl, Hrun.
    intros cmd (path & Hpath & Hacc). exists (nodeId :: path). split.
    + eapply descent_down; [|done]. by exists node.
    + simpl. rewrite Hnode. done.
Qed.

(** C1.  A visit of a node received with transform [tr] uses
    [node_matrix node * tr]: that product is the transform of every draw
    command the node's own primitives add, and the transform every child is
    visited with.  The roots of the default scene are visited with the
    identity, so every draw command of the loaded document carries the
    transform accumulated along a path from a root. *)
Theorem accumulated_transform :
  (∀ fuel model nodeId tr g g',
     load_gltf_node (S fuel) model nodeId tr g = Ok tt g' →
     ∃ node g1,
       vec_at (nodes model) nodeId = Some node ∧
       local_transform node = Some (node_matrix node) ∧
       load_node_mesh model node (mat4_mul (node_matrix node) tr) g = Ok tt g1 ∧
       adds_draws (fun c => transform c = mat4_mul (node_matrix node) tr) g g1 ∧
       for_each (children node)
         (fun c => load_gltf_node fuel model c (mat4_mul (node_matrix node) tr)) g1
       = Ok tt g') ∧
  (∀ fuel l g',
     load_gltf_model fuel l initial_globals = Ok tt g' →
     ∃ scene,
       vec_at (scenes (loaded_model l)) (defaultScene (loaded_model l)) = Some scene ∧
       Forall (fun cmd => ∃ root path,
                 root ∈ scene_nodes scene ∧
                 descent (loaded_model l) root path ∧
                 accumulated (loaded_model l) mat4_identity path = Some (transform cmd))
              (drawObjects g')).
Proof.
  split.
  - intros fuel model nodeId tr g g' H.
    apply load_gltf_node_step in H as (node & g1 & Hnode & Hmesh & Hkids).
    exists node, g1. repeat split; try done.
    + apply local_transform_node_matrix.
    + by apply load_node_mesh_draws in Hmesh.
  - intros fuel l g' H. rewrite load_gltf_model_cases in H.
    destruct (negb (str_empty (loaded_err l))); [done|].
    destruct (negb (loaded_ret l)); [done|].
    inv_ok. eexists. split; [done|].
    match goal with H : for_each _ _ _ = _ |- _ =>
      eapply (for_each_rel (adds_draws (fun cmd => ∃ root path,
                 root ∈ scene_nodes _ ∧
                 descent (loaded_model l) root path ∧
                 accumulated (loaded_model l) mat4_identity path = Some (transform cmd))))
        in H as (ds & E & Hds) end.
    + simpl in E. by rewrite E.
    + intros root s s' Hroot Hrun. apply load_gltf_node_paths in Hrun.
      eapply adds_draws_impl, Hrun. intros cmd (path & Hp & Ha). eauto.
Qed.

(** ** The frame callback *)

Lemma int_incr_Ok {S : Type} i (s : S) i' s' :
  int_incr i s = Ok i' s' ↔ i < INT_MAX ∧ i' = i + 1 ∧ s' = s.
Proof.
  unfold int_incr. destruct (decide (i < INT_MAX)).
  - rewrite ret_Ok. tauto.
  - split; [done | lia].
Qed.

Lemma for_each_counting_rel {S A : Type} (R : relation S) `{!PreOrder R}
    (body : A → Z → M S unit) :
  (∀ x i s s', body x i s = Ok tt s' → R s s') →
  ∀ xs i s s', for_each_counting xs i body s = Ok tt s' → R s s'.
Proof.
  intros Hbody. induction xs as [|x xs IH]; intros i s s' H; simpl in H.
  - apply ret_Ok in H as [_ ->]. reflexivity.
  - apply bind_Ok in H as ([] & s1 & H1 & H).
    apply bind_Ok in H as (i' & s2 & H2 & H).
    apply int_incr_Ok in H2 as (_ & -> & ->).
    transitivity s1; eauto.
Qed.

#[local] Instance same_globals_preorder : PreOrder same_globals.
Proof.
  split; [by intros a | intros a b c H1 H2]. unfold same_globals in *. congruence.
Qed.

#[local] Instance only_recorded_preorder : PreOrder only_recorded.
Proof.
  split; [by intros a | intros a b c H1 H2]. unfold only_recorded in *.
  destruct H1 as (?&?&?&?), H2 as (?&?&?&?). repeat split; congruence.
Qed.

Lemma record_cmd_only c a a' : record_cmd c a = Ok tt a' → only_recorded a a'.
Proof. unfold record_cmd. intros H. apply modify_Ok in H as ->. by repeat split. Qed.

Lemma record_draw_only ctx cmd i a a' :
  record_draw ctx cmd i a = Ok tt a' → only_recorded a a'.
Proof.
  unfold record_draw. intros H. inv_ok.
  match goal with H1 : record_cmd _ _ = _, H2 : record_cmd _ _ = _ |- _ =>
    apply record_cmd_only in H1; apply record_cmd_only in H2 end.
  etransitivity; done.
Qed.

Lemma vec_at_Some {A : Type} (v : list A) i x :
  vec_at v i = Some x ↔ 0 ≤ i ∧ v !! Z.to_nat i = Some x.
Proof.
  unfold vec_at. destruct (decide (0 ≤ i)); [tauto|].
  split; [done | tauto].
Qed.

Lemma write_uniform_Ok ctx cmd i a a' :
  write_uniform ctx cmd i a = Ok tt a' →
  let slot := uniform_slot (ctx_imageIndex ctx) (vec_size (drawObjects (globals a))) i in
  globals a' = globals a ∧ viewMtx a' = viewMtx a ∧ projMtx a' = projMtx a ∧
  width a' = width a ∧ height a' = height a ∧
  uniformBuffer a' !! Z.to_nat slot =
    Some {| modelMtx := transform cmd;
            viewProjMtx := mat4_mul (projMtx a) (viewMtx a) |} ∧
  ∀ k, k ≠ Z.to_nat slot → uniformBuffer a' !! k = uniformBuffer a !! k.
Proof.
  unfold write_uniform. intros H. inv_ok. simpl.
  match goal with H : vec_at _ _ = Some _ |- _ => apply vec_at_Some in H as [_ Hold] end.
  repeat split; try done.
  - rewrite !list_lookup_alter_eq, Hold. done.
  - intros k Hk. by rewrite !list_lookup_alter_ne.
Qed.

Lemma size_t_shift_ne (x d : Z) : 0 < d < 2 ^ 64 → size_t x ≠ size_t (x + d).
Proof.
  unfold size_t. intros Hd E.
  assert ((x + d - x) mod 2 ^ 64 = 0) as H.
  { rewrite Zminus_mod, <- E, Z.sub_diag. done. }
  replace (x + d - x) with d in H by lia.
  rewrite Z.mod_small in H; lia.
Qed.

Lemma size_t_nonneg x : 0 ≤ size_t x.
Proof. unfold size_t. pose proof (Z.mod_pos_bound x (2 ^ 64)). lia. Qed.

(** The loop of lines 286-292, started with counter [i0]. *)
Lemma write_uniforms_Ok ctx xs i0 a a' :
  0 ≤ i0 →
  for_each_counting xs i0 (write_uniform ctx) a = Ok tt a' →
  let slot i := uniform_slot (ctx_imageIndex ctx) (vec_size (drawObjects (globals a))) i in
  globals a' = globals a ∧ viewMtx a' = viewMtx a ∧ projMtx a' = projMtx a ∧
  width a' = width a ∧ height a' = height a ∧
  i0 + Z.of_nat (length xs) ≤ Z.max i0 INT_MAX ∧
  (∀ (j : nat) cmd, xs !! j = Some cmd →
     uniformBuffer a' !! Z.to_nat (slot (i0 + Z.of_nat j)) =
       Some {| modelMtx := transform cmd;
               viewProjMtx := mat4_mul (projMtx a) (viewMtx a) |}) ∧
  (∀ k, (∀ j : nat, (j < length xs)%nat → k ≠ Z.to_nat (slot (i0 + Z.of_nat j))) →
     uniformBuffer a' !! k = uniformBuffer a !! k).
Proof.
  revert i0 a. induction xs as [|x xs IH]; intros i0 a Hi0 H; simpl in H.
  - apply ret_Ok in H as [_ ->]. simpl. repeat split; try done. lia.
  - apply bind_Ok in H as ([] & a1 & H1 & H).
    apply bind_Ok in H as (i' & a2 & H2 & H).
    apply int_incr_Ok in H2 as (Hlt & -> & ->).
    apply write_uniform_Ok in H1 as (Eg & Ev & Ep & Ew & Eh & Hat & Hother).
    apply IH in H as (Eg' & Ev' & Ep' & Ew' & Eh' & Hlen & Hat' & Hother'); [|lia].
    rewrite Eg in *. rewrite Ev, Ep in *.
    cbn zeta. repeat split; try congruence.
    + cbn [length]. unfold INT_MAX in *. lia.
    + intros [|j] cmd Hj; simpl in Hj.
      * injection Hj as <-. rewrite Z.add_0_r. rewrite Hother'; [done|].
        intros j Hj E. apply Z2Nat.inj in E; try apply size_t_nonneg.
        unfold uniform_slot in E.
        eapply (size_t_shift_ne _ (1 + Z.of_nat j)).
        -- unfold INT_MAX in *. simpl in Hlen. lia.
        -- rewrite E. f_equal. lia.
      * replace (i0 + Z.of_nat (S j)) with (i0 + 1 + Z.of_nat j) by lia.
        by apply Hat'.
    + intros k Hk. rewrite Hother'.
      * apply Hother. specialize (Hk 0%nat). rewrite Z.add_0_r in Hk.
        apply Hk. simpl. lia.
      * intros j Hj. specialize (Hk (S j)).
        replace (i0 + Z.of_nat (S j)) with (i0 + 1 + Z.of_nat j) in Hk by lia.
        apply Hk. simpl. lia.
Qed.

(** The callback is: set the two matrices, write the uniforms, record. *)
Lemma render_Ok ctx a a' :
  render ctx a = Ok tt a' →
  ∃ a1,
    for_each_counting (drawObjects (globals a)) 0 (write_uniform ctx)
      (set_projMtx (flip_y (frame_perspective (width a) (height a)))
         (set_viewMtx (frame_view (ctx_time ctx)) a)) = Ok tt a1 ∧
    only_recorded a1 a'.
Proof.
  unfold render. intros H. inv_ok. simpl in *.
  eexists. split; [eassumption|].
  repeat match goal with
  | H : record_cmd _ _ = Ok _ _ |- _ => apply record_cmd_only in H
  | H : for_each_counting _ _ (record_draw _) _ = Ok _ _ |- _ =>
      apply (for_each_counting_rel only_recorded (record_draw ctx)
               (record_draw_only ctx)) in H
  end.
  repeat (etransitivity; [eassumption|]). reflexivity.
Qed.

Lemma render_same_globals ctx a a' : render ctx a = Ok tt a' → same_globals a a'.
Proof.
  intros H. apply render_Ok in H as (a1 & Hw & Hr).
  apply write_uniforms_Ok in Hw as (Eg & _); [|done].
  destruct Hr as (Eg' & _). unfold same_globals. by rewrite Eg', Eg.
Qed.

(** C4.  However many frames are rendered, the callback leaves [vertices],
    [indicies] and [drawObjects] exactly as loading left them. *)
Theorem frames_keep_globals frames a a' :
  run_frames frames a = Ok tt a' →
  vertices (globals a') = vertices (globals a) ∧
  indicies (globals a') = indicies (globals a) ∧
  drawObjects (globals a') = drawObjects (globals a).
Proof.
  intros H.
  assert (same_globals a a') as E.
  { eapply (for_each_rel same_globals), H. intros ctx s s' _.
    apply render_same_globals. }
  unfold same_globals in E. by rewrite E.
Qed.

(** C5.  A frame stores, for the [i]-th draw command, a uniform whose model
    matrix is the command's transform and whose view-projection matrix is
    the product of the frame's projection and view matrices, the same for
    every draw of the frame; it stores it in slot
    [imageIndex * drawObjects.size() + i] of the uniform buffer.  The two
    matrices are the ones computed in this frame from [ctx.time] and the
    window size. *)
Theorem frame_uniforms ctx a a' :
  render ctx a = Ok tt a' →
  let n := vec_size (drawObjects (globals a)) in
  viewMtx a' = frame_view (ctx_time ctx) ∧
  projMtx a' = flip_y (frame_perspective (width a) (height a)) ∧
  (∀ (i : nat) cmd,
     drawObjects (globals a) !! i = Some cmd →
     uniformBuffer a' !! Z.to_nat (uniform_slot (ctx_imageIndex ctx) n (Z.of_nat i))
     = Some {| modelMtx := transform cmd;
               viewProjMtx := mat4_mul (flip_y (frame_perspective (width a) (height a)))
                                       (frame_view (ctx_time ctx)) |}) ∧
  (0 ≤ ctx_imageIndex ctx < 2 ^ 32 →
   ∀ i, 0 ≤ i < n →
     uniform_slot (ctx_imageIndex ctx) n i = ctx_imageIndex ctx * n + i).
Proof.
  intros H. apply render_Ok in H as (a1 & Hw & (Eg & Eu & Ev & Ep)).
  apply write_uniforms_Ok in Hw as (_ & Ev1 & Ep1 & _ & _ & Hlen & Hat & _); [|done].
  simpl in *. rewrite Ev, Ep, Ev1, Ep1. split; [done|]. split; [done|]. split.
  - intros i cmd Hi. rewrite Eu. by apply Hat.
  - intros Hii i Hi. unfold uniform_slot, size_t, vec_size, INT_MAX in *.
    apply Z.mod_small. nia.
Qed.

(** ** Termination *)

(** Distinct valid node numbers are at most as many as there are nodes. *)
Lemma distinct_nodes_bound {A : Type} (v : list A) (ids : list Z) :
  NoDup ids → (∀ a, a ∈ ids → is_Some (vec_at v a)) → (length ids ≤ length v)%nat.
Proof.
  intros Hnd Hvalid.
  assert (Hin : ∀ a, a ∈ ids → 0 ≤ a ∧ (Z.to_nat a < length v)%nat).
  { intros a [x Hx%vec_at_Some]%Hvalid. split; [tauto|].
    eapply lookup_lt_Some, Hx. }
  rewrite <- (length_fmap Z.to_nat ids).
  transitivity (length (seq 0 (length v))); [|by rewrite length_seq].
  apply submseteq_length, NoDup_submseteq.
  - apply NoDup_fmap_2_strong; [|done].
    intros a b Ha%Hin Hb%Hin E. lia.
  - intros n (a & -> & Ha%Hin)%list_elem_of_fmap.
    apply elem_of_seq. lia.
Qed.

Lemma load_node_mesh_settled model node tr g :
  settled (node_in_range model node) (load_node_mesh model node tr g).
Proof.
  unfold load_node_mesh. destruct (decide (0 ≤ mesh node)) as [Hm|Hm]; [|done].
  apply settled_bind.
  { apply settled_checked. intros [(m & -> & _) _]; [done|by eexists]. }
  intros m ? [Hmesh ->]%checked_Ok.
  apply settled_bind; [done|]. intros _ ? [_ ->]%ret_Ok.
  apply for_each_settled. intros prim Hprim s.
  eapply settled_weaken, load_primitive_settled.
  intros [(m' & Hm' & Hall) _]; [done|]. simplify_eq.
  by eapply Forall_forall in Hall.
Qed.

Lemma model_in_range_node model nodeId node :
  vec_at (nodes model) nodeId = Some node →
  model_in_range model → node_in_range model node.
Proof.
  intros [_ H]%vec_at_Some Hall. by eapply Forall_lookup_1 in Hall.
Qed.

(** A visit entered below the distinct ancestors [anc], with more fuel than
    there are nodes left to go through, is settled. *)
Lemma load_gltf_node_settled model top :
  acyclic_from model top →
  ∀ fuel nodeId anc tr g,
    rtc (child_of model) top nodeId →
    NoDup anc →
    (∀ a, a ∈ anc → is_Some (vec_at (nodes model) a) ∧ tc (child_of model) a nodeId) →
    (length (nodes model) < length anc + fuel)%nat →
    settled (model_in_range model ∧ is_Some (vec_at (nodes model) nodeId))
            (load_gltf_node fuel model nodeId tr g).
Proof.
  intros Hacyc. induction fuel as [|fuel IH]; intros nodeId anc tr g Hreach Hnd Hanc Hlen.
  - exfalso.
    assert (length anc ≤ length (nodes model))%nat as H; [|lia].
    apply distinct_nodes_bound; [done|]. intros a Ha. by apply Hanc.
  - cbn [load_gltf_node].
    apply settled_bind.
    { apply settled_checked. tauto. }
    intros node ? [Hnode ->]%checked_Ok.
    apply settled_bind.
    { apply settled_checked. intros _. rewrite local_transform_node_matrix. by eexists. }
    intros m ? [Hm ->]%checked_Ok.
    apply settled_bind.
    { eapply settled_weaken, load_node_mesh_settled.
      intros [Hall _]. by eapply model_in_range_node. }
    intros _ g1 _.
    apply for_each_settled. intros c Hc s.
    assert (Hstep : child_of model nodeId c) by by exists node.
    eapply settled_weaken; [|apply (IH c (nodeId :: anc))].
    + intros [Hall _]. split; [done|].
      pose proof (model_in_range_node _ _ _ Hnode Hall) as [_ Hkids].
      by eapply Forall_forall in Hkids.
    + eapply rtc_r; done.
    + constructor; [|done]. intros Hin.
      apply Hanc in Hin as [_ Htc]. by eapply Hacyc.
    + intros a [->|Ha]%elem_of_cons.
      * split; [by eexists | by apply tc_once].
      * apply Hanc in Ha as [Hv Htc]. split; [done|].
        eapply tc_r; done.
    + simpl. lia.
Qed.

(** More fuel does not change a visit that did not run out of it. *)
Lemma for_each_same {S A : Type} (xs : list A) (body1 body2 : A → M S unit) :
  (∀ x s, body1 x s ≠ OutOfFuel → body2 x s = body1 x s) →
  ∀ s, for_each xs body1 s ≠ OutOfFuel → for_each xs body2 s = for_each xs body1 s.
Proof.
  intros Hbody. induction xs as [|x xs IH]; intros s H; simpl in *; [done|].
  unfold bind in *. destruct (body1 x s) as [[] s1| | |] eqn:E.
  - rewrite Hbody, E by congruence. by apply IH.
  - by rewrite Hbody, E by congruence.
  - by rewrite Hbody, E by congruence.
  - done.
Qed.

Lemma bind_same {S A B : Type} (m : M S A) (k1 k2 : A → M S B) s :
  (∀ a s1, k1 a s1 ≠ OutOfFuel → k2 a s1 = k1 a s1) →
  bind m k1 s ≠ OutOfFuel → bind m k2 s = bind m k1 s.
Proof. unfold bind. destruct (m s); eauto. Qed.

Lemma load_gltf_node_more_fuel model fuel fuel' nodeId tr g :
  (fuel ≤ fuel')%nat →
  load_gltf_node fuel model nodeId tr g ≠ OutOfFuel →
  load_gltf_node fuel' model nodeId tr g = load_gltf_node fuel model nodeId tr g.
Proof.
  revert fuel' nodeId tr g.
  induction fuel as [|fuel IH]; intros fuel' nodeId tr g Hle H; [done|].
  destruct fuel' as [|fuel']; [lia|].
  cbn [load_gltf_node] in *.
  revert H. apply bind_same. intros node g0.
  apply bind_same. intros m g1.
  apply bind_same. intros _ g2.
  apply for_each_same. intros c s Hc. apply IH; [lia|done].
Qed.

(** ** Reads that are inside a buffer *)

Lemma read_bytes_Some data off n :
  0 ≤ off → off + Z.of_nat n ≤ vec_size data →
  ∃ bs, read_bytes data off n = Some bs ∧ length bs = n.
Proof.
  intros H0 Hn. unfold read_bytes. rewrite decide_True by done.
  eexists. split; [done|]. unfold vec_size in Hn.
  rewrite length_take, length_drop. lia.
Qed.

Lemma read_u16_is_Some data base :
  0 ≤ base → base + 2 ≤ vec_size data → is_Some (read_u16 data base).
Proof.
  intros H0 H2. unfold read_u16.
  destruct (read_bytes_Some data base 2) as (bs & -> & Hlen); [done|done|].
  destruct bs as [|b0 [|b1 [|]]]; try done.
Qed.

Lemma read_float_is_Some data base k :
  0 ≤ base + 4 * k → base + 4 * k + 4 ≤ vec_size data →
  is_Some (read_float data base k).
Proof.
  intros H0 H4. unfold read_float.
  destruct (read_bytes_Some data (base + 4 * k) 4) as (bs & -> & _); done.
Qed.

(** * Further properties of the loader *)

(** ** Cycles *)

Lemma for_each_Ok_each {S A : Type} (xs : list A) (body : A → M S unit) s s' :
  for_each xs body s = Ok tt s' →
  ∀ x, x ∈ xs → ∃ s1 s2, body x s1 = Ok tt s2.
Proof.
  revert s. induction xs as [|y xs IH]; intros s H x Hx.
  - by apply not_elem_of_nil in Hx.
  - simpl in H. apply bind_Ok in H as ([] & s1 & H1 & H2).
    apply elem_of_cons in Hx as [->|Hx]; [eauto | by eapply IH].
Qed.

(** A visit that returns has visited every child, with less fuel. *)
Lemma visit_reaches_child model fuel a b tr g g' :
  load_gltf_node fuel model a tr g = Ok tt g' →
  child_of model a b →
  ∃ fuel' tr1 g1 g2,
    (fuel' < fuel)%nat ∧ load_gltf_node fuel' model b tr1 g1 = Ok tt g2.
Proof.
  destruct fuel as [|fuel]; [done|]. intros H (node & Hnode & Hb).
  apply load_gltf_node_step in H as (node' & g1 & Hnode' & _ & Hkids).
  simplify_eq.
  destruct (for_each_Ok_each _ _ _ _ Hkids b Hb) as (s1 & s2 & Hs).
  exists fuel. eexists _, s1, s2. split; [lia | exact Hs].
Qed.

Lemma visit_reaches model a b :
  tc (child_of model) a b →
  ∀ fuel tr g g',
    load_gltf_node fuel model a tr g = Ok tt g' →
    ∃ fuel' tr1 g1 g2,
      (fuel' < fuel)%nat ∧ load_gltf_node fuel' model b tr1 g1 = Ok tt g2.
Proof.
  induction 1 as [a b Hab|a b c Hab _ IH]; intros fuel tr g g' H.
  - by eapply visit_reaches_child.
  - destruct (visit_reaches_child _ _ _ _ _ _ _ H Hab) as (f1 & tr1 & g1 & g2 & Hlt & H1).
    destruct (IH _ _ _ _ H1) as (f2 & tr2 & g3 & g4 & Hlt2 & H2).
    exists f2, tr2, g3, g4. split; [lia|done].
Qed.

(** X1.  The converse of termination on acyclic graphs: when some node
    reachable from [nodeId] is its own descendant, the visit of [nodeId]
    returns for no amount of fuel. *)
Theorem cyclic_never_returns model nodeId a fuel tr g g' :
  rtc (child_of model) nodeId a →
  tc (child_of model) a a →
  load_gltf_node fuel model nodeId tr g ≠ Ok tt g'.
Proof.
  intros Hreach Hcycle.
  assert (Hloop : ∀ f tr1 g1 g2, load_gltf_node f model a tr1 g1 ≠ Ok tt g2).
  { induction f as [f IH] using lt_wf_ind. intros tr1 g1 g2 H.
    destruct (visit_reaches _ _ _ Hcycle _ _ _ _ H) as (f' & tr2 & g3 & g4 & Hlt & H').
    by eapply IH. }
  apply rtc_tc in Hreach as [->|Hreach]; [apply Hloop|].
  intros H. destruct (visit_reaches _ _ _ Hreach _ _ _ _ H) as (f' & tr2 & g3 & g4 & _ & H').
  by eapply Hloop.
Qed.

(** ** Documents that lack what the loader assumes *)

Lemma vec_at_negative {A : Type} (v : list A) i : i < 0 → vec_at v i = None.
Proof. intros H. unfold vec_at. by rewrite decide_False by lia. Qed.

Lemma bind_stays_undefined {S A B : Type} (m : M S A) (k : A → M S B) s :
  settled False (m s) → (∀ a s1, k a s1 = Undefined) → bind m k s = Undefined.
Proof. unfold bind. destruct (m s); simpl; try tauto. eauto. Qed.

(** X2.  A primitive without an index accessor ([indices] negative, as
    tinygltf leaves it for non-indexed geometry) is never loaded: the
    subscript [model.accessors[primitive.indices]] is out of range. *)
Theorem unindexed_primitive_undefined model tr prim g :
  indices prim < 0 → load_primitive model tr prim g = Undefined.
Proof.
  intros Hneg. unfold load_primitive.
  apply bind_stays_undefined; [by apply settled_checked|]. intros pa g0.
  apply bind_stays_undefined; [done|]. intros _ g1.
  apply bind_stays_undefined; [by apply settled_checked|]. intros pv g2.
  apply bind_stays_undefined; [by apply settled_checked|]. intros pb g3.
  unfold bind, checked. by rewrite vec_at_negative.
Qed.

(** X3.  A primitive that has no POSITION attribute is loaded exactly as if
    its POSITION were accessor [0]: [attributes["POSITION"]] yields [0] for
    a missing key. *)
Theorem missing_position_is_accessor_0 model tr prim g :
  attributes prim !! "POSITION"%string = None →
  load_primitive model tr prim g =
  load_primitive model tr
    {| attributes := <["POSITION"%string := 0]> (attributes prim);
       indices := indices prim |} g.
Proof.
  intros H. unfold load_primitive, attr_at. cbn [attributes indices].
  by rewrite H, lookup_insert_eq.
Qed.

(** X4.  When the loader reported no error but the document's default
    scene is not one of its scenes (tinygltf leaves [defaultScene] at [-1]
    when the file names none), [load_gltf_model] does not throw: the
    subscript [model.scenes[model.defaultScene]] is out of range. *)
Theorem missing_scene_undefined fuel l g :
  loaded_err l = ""%string → loaded_ret l = true →
  vec_at (scenes (loaded_model l)) (defaultScene (loaded_model l)) = None →
  load_gltf_model fuel l g = Undefined.
Proof.
  intros Herr Hret Hscene. rewrite load_gltf_model_cases, Herr, Hret. simpl.
  unfold bind, checked. by rewrite Hscene.
Qed.

(** ** The draw commands partition the index buffer *)

Lemma tiles_app a xs ys c :
  tiles a (xs ++ ys) c ↔ ∃ b, tiles a xs b ∧ tiles b ys c.
Proof.
  revert a. induction xs as [|x xs IH]; intros a; simpl.
  - split; [eauto | by intros (b & -> & H)].
  - rewrite IH. split.
    + intros (E & b & H1 & H2). eauto.
    + intros (b & (E & H1) & H2). eauto.
Qed.

Lemma grows_indices g g' : grows g g' → vec_size (indicies g) ≤ vec_size (indicies g').
Proof.
  intros (vs & xs & ds & (_ & E & _) & _). unfold vec_size.
  rewrite E, length_app. lia.
Qed.

#[local] Instance keeps_tiling_preorder : PreOrder keeps_tiling.
Proof.
  split.
  - intros g. split; [reflexivity | auto].
  - intros g1 g2 g3 [Hg12 H12] [Hg23 H23]. split; [by etransitivity|].
    intros Hlt start Ht. apply H23; [done|]. apply H12; [|done].
    apply grows_indices in Hg23. lia.
Qed.

Lemma load_primitive_keeps_tiling model tr prim g g' :
  load_primitive model tr prim g = Ok tt g' → keeps_tiling g g'.
Proof.
  intros H. split; [by eapply load_primitive_grows|].
  apply load_primitive_Ok in H
    as (pa & pv & pb & ia & iv & ib & vs & xs & _ & _ & _ & Hxs & ->).
  apply Forall2_length in Hxs. rewrite length_seqZ in Hxs.
  cbn [indicies drawObjects]. unfold vec_size. rewrite length_app.
  intros Hlt start Ht. apply tiles_app. eexists. split; [exact Ht|].
  cbn [tiles firstIndex indexCount]. unfold uint32_t, vec_size.
  rewrite !Z.mod_small by lia. lia.
Qed.

(** X5.  When the flattened index buffer has fewer than [2^32] elements,
    the draw commands partition it: the first starts at index [0], each
    next one starts where the previous one ends, and the last ends at the
    end of the buffer. *)
Theorem draw_commands_tile_indices fuel l g' :
  load_gltf_model fuel l initial_globals = Ok tt g' →
  vec_size (indicies g') < 2 ^ 32 →
  tiles 0 (drawObjects g') (vec_size (indicies g')).
Proof.
  intros H Hlt.
  destruct (load_gltf_model_rel keeps_tiling l
              (load_primitive_keeps_tiling (loaded_model l)) fuel _ _ H) as [_ Ht].
  by apply Ht.
Qed.

(** ** The whole vertex buffer *)

#[local] Instance keeps_provenance_preorder model :
  PreOrder (fun g g' : Globals =>
    Forall (vertex_from model) (vertices g) → Forall (vertex_from model) (vertices g')).
Proof. split; [by intros g | intros g1 g2 g3 H1 H2 H; auto]. Qed.

Lemma load_primitive_provenance model tr prim g g' :
  load_primitive model tr prim g = Ok tt g' →
  Forall (vertex_from model) (vertices g) → Forall (vertex_from model) (vertices g').
Proof.
  intros Hp Hg. apply load_primitive_Ok in Hp
    as (pa & pv & pb & ia & iv & ib & vs & xs & Ha & _ & Hvs & _ & ->).
  cbn [vertices]. apply Forall_app. split; [done|]. clear Hg.
  apply Forall_forall. intros v [i Hi]%list_elem_of_lookup.
  destruct (Forall2_lookup_r _ _ _ _ _ Hvs Hi) as (k & Hk & Hkv).
  apply lookup_seqZ in Hk as [-> Hlt].
  split; [by apply vertex_of_Some in Hkv as [Hc _]|].
  exists (attr_at (attributes prim) "POSITION"), pa, pv, pb, (0 + Z.of_nat i).
  split; [done|]. split; [lia|done].
Qed.

(** X6.  Nothing else gets into the vertex buffer: after [load_gltf_model]
    every vertex is element [k] of some accessor of the document, read at
    that accessor's stride, with [k] below the accessor's count, and has
    colour [(0.7, 0.7, 0.7)]. *)
Theorem loaded_vertices_provenance fuel l g' :
  load_gltf_model fuel l initial_globals = Ok tt g' →
  Forall (vertex_from (loaded_model l)) (vertices g').
Proof.
  intros H.
  apply (load_gltf_model_rel
           (fun g g' : Globals =>
              Forall (vertex_from (loaded_model l)) (vertices g) →
              Forall (vertex_from (loaded_model l)) (vertices g')) l
           (load_primitive_provenance (loaded_model l)) fuel _ _ H).
  constructor.
Qed.

(** ** Order of the draw commands, contents of the index buffer *)

Lemma load_primitives_draws model tr prims g g' :
  for_each prims (load_primitive model tr) g = Ok tt g' →
  ∃ ds, drawObjects g' = drawObjects g ++ ds ∧ length ds = length prims ∧
        Forall (fun c => transform c = tr) ds.
Proof.
  revert g. induction prims as [|prim prims IH]; intros g H; simpl in H.
  - apply ret_Ok in H as [_ ->]. exists []. by rewrite app_nil_r.
  - apply bind_Ok in H as ([] & g1 & H1 & H).
    apply load_primitive_appended in H1 as (vs & xs & c & (_ & _ & Ed) & Etr & _).
    apply IH in H as (ds & Eds & Hlen & Hall).
    exists (c :: ds). rewrite Eds, Ed, <- app_assoc. split; [done|].
    split; [simpl; lia | by constructor].
Qed.

Lemma index_of_Some B V A stride k x :
  index_of B V A stride k = Some x →
  ∃ b0 b1,
    read_bytes (buf_data B) (element_offset V A stride k) 2 = Some [b0; b1] ∧
    x = byte_val b0 + 256 * byte_val b1.
Proof.
  unfold index_of, read_u16.
  destruct (read_bytes _ _ 2) as [[|b0 [|b1 [|]]]|]; try done.
  simpl. intros [= <-]. exists b0, b1. split; [done|].
  pose proof (byte_val_bound b0). pose proof (byte_val_bound b1).
  unfold uint32_t. rewrite Z.mod_small; lia.
Qed.

(** X14.  The indices a primitive appends are, in order, one per element of
    its index accessor; the index of element [i] is the unsigned value of
    the two bytes at [bufferView.byteOffset + accessor.byteOffset + stride * i]
    of the buffer, low byte first.  The accessor's component type is not
    consulted: of a wider element only the first two bytes are taken. *)
Theorem appended_indices model tr prim g g' :
  load_primitive model tr prim g = Ok tt g' →
  ∃ ia iv ib xs,
    accessor_data model (indices prim) = Some (ia, iv, ib) ∧
    indicies g' = indicies g ++ xs ∧
    length xs = N.to_nat (acc_count ia) ∧
    ∀ (i : nat) x, xs !! i = Some x →
      ∃ b0 b1,
        read_bytes (buf_data ib)
          (Z.of_N (bv_byteOffset iv) + Z.of_N (acc_byteOffset ia)
           + size_t (size_t (ByteStride ia iv) * Z.of_nat i)) 2 = Some [b0; b1] ∧
        x = byte_val b0 + 256 * byte_val b1.
Proof.
  intros H. apply load_primitive_Ok in H
    as (pa & pv & pb & ia & iv & ib & vs & xs & _ & Hi & _ & Hxs & ->).
  exists ia, iv, ib, xs. split; [done|]. split; [done|]. split.
  - apply Forall2_length in Hxs. rewrite length_seqZ in Hxs. lia.
  - intros i x Hx.
    destruct (Forall2_lookup_r _ _ _ _ _ Hxs Hx) as (k & Hk & Hkx).
    apply lookup_seqZ in Hk as [-> _]. rewrite Z.add_0_l in Hkx.
    by apply index_of_Some in Hkx.
Qed.

(** * Further properties of the frame callback *)

Lemma record_cmd_Ok c a a' :
  record_cmd c a = Ok tt a' ↔
  a' = {| globals := globals a; viewMtx := viewMtx a; projMtx := projMtx a;
          width := width a; height := height a; uniformBuffer := uniformBuffer a;
          framebuffers := framebuffers a; recorded := recorded a ++ [c] |}.
Proof. unfold record_cmd. by rewrite modify_Ok. Qed.

(** The loop of lines 307-312 in closed form. *)
Lemma record_draws_Ok ctx xs i0 a a' :
  for_each_counting xs i0 (record_draw ctx) a = Ok tt a' →
  only_recorded a a' ∧ framebuffers a' = framebuffers a ∧
  recorded a' = recorded a ++
    draw_commands (ctx_imageIndex ctx) (vec_size (drawObjects (globals a))) i0 xs.
Proof.
  revert i0 a. induction xs as [|x xs IH]; intros i0 a H; simpl in H.
  - apply ret_Ok in H as [_ ->]. simpl. rewrite app_nil_r. by repeat split.
  - apply bind_Ok in H as ([] & a1 & H1 & H).
    apply bind_Ok in H as (i' & a2 & H2 & H).
    apply int_incr_Ok in H2 as (_ & -> & ->).
    unfold record_draw in H1. inv_ok.
    repeat match goal with H : record_cmd _ _ = Ok _ _ |- _ =>
      apply record_cmd_Ok in H; subst end.
    apply IH in H as ((Eg & Eu & Ev & Ep) & Ef & Er). simpl in *.
    split; [by repeat split|]. split; [done|].
    rewrite Er, <- !app_assoc. done.
Qed.

(** Writing the uniforms touches nothing but the uniform buffer, whose
    length it keeps. *)
Lemma write_uniform_frame ctx cmd i a a' :
  write_uniform ctx cmd i a = Ok tt a' →
  framebuffers a' = framebuffers a ∧ recorded a' = recorded a ∧
  length (uniformBuffer a') = length (uniformBuffer a).
Proof.
  unfold write_uniform. intros H. inv_ok. simpl.
  by rewrite !length_alter.
Qed.

#[local] Instance only_uniforms_preorder : PreOrder only_uniforms.
Proof.
  split; [by intros x | intros x y z (?&?&?) (?&?&?)].
  unfold only_uniforms. repeat split; congruence.
Qed.

Lemma write_uniforms_frame ctx xs i0 a a' :
  for_each_counting xs i0 (write_uniform ctx) a = Ok tt a' → only_uniforms a a'.
Proof.
  apply (for_each_counting_rel only_uniforms).
  intros cmd i s s'. apply write_uniform_frame.
Qed.

(** What one frame records. *)
Lemma render_log ctx a a' :
  render ctx a = Ok tt a' →
  ∃ fb,
    vec_at (framebuffers a) (ctx_imageIndex ctx) = Some fb ∧
    recorded a' = recorded a ++
      [CmdBegin; CmdBeginRenderPass fb (uint32_t (width a)) (uint32_t (height a));
       CmdBindPipeline; CmdBindVertexBuffer 0; CmdBindIndexBuffer 0] ++
      draw_commands (ctx_imageIndex ctx) (vec_size (drawObjects (globals a))) 0
        (drawObjects (globals a)) ++
      [CmdEndRenderPass; CmdEnd].
Proof.
  unfold render. intros H. inv_ok. simpl in *.
  match goal with H : for_each_counting _ _ (write_uniform _) _ = Ok _ _ |- _ =>
    pose proof (write_uniforms_frame _ _ _ _ _ H) as (Ef & Er & _);
    apply write_uniforms_Ok in H as (Eg & _); [|done] end.
  simpl in *.
  repeat match goal with H : record_cmd _ _ = Ok _ _ |- _ =>
    apply record_cmd_Ok in H; subst end.
  simpl in *.
  match goal with H : for_each_counting _ _ (record_draw _) _ = Ok _ _ |- _ =>
    apply record_draws_Ok in H as (_ & _ & Er') end.
  simpl in *.
  match goal with H : vec_at _ _ = Some ?fb |- _ => exists fb; rewrite Ef in H end.
  split; [done|].
  rewrite Er', Er, Eg, <- !app_assoc. done.
Qed.

(** X7.  What one frame records, in this order: begin; the render pass on
    the framebuffer of the frame's swapchain image; the pipeline and the two
    buffers at offset [0]; then for each draw command, in the order of
    [drawObjects], a uniform binding at byte offset [128 * slot] (the slot
    the frame wrote for that draw) and one [DrawIndexed] with the command's
    three counters; end of pass; end. *)
Theorem frame_commands ctx a a' :
  render ctx a = Ok tt a' →
  ∃ fb,
    vec_at (framebuffers a) (ctx_imageIndex ctx) = Some fb ∧
    recorded a' = recorded a ++
      [CmdBegin; CmdBeginRenderPass fb (uint32_t (width a)) (uint32_t (height a));
       CmdBindPipeline; CmdBindVertexBuffer 0; CmdBindIndexBuffer 0] ++
      draw_commands (ctx_imageIndex ctx) (vec_size (drawObjects (globals a))) 0
        (drawObjects (globals a)) ++
      [CmdEndRenderPass; CmdEnd].
Proof. apply render_log. Qed.

(** X8.  A frame keeps the length of the uniform buffer and leaves the
    uniforms of every other swapchain image as they were: for image numbers
    below [2^32], the slots of image [other] are untouched by a frame for a
    different image. *)
Theorem frame_keeps_other_images ctx a a' other i :
  render ctx a = Ok tt a' →
  let n := vec_size (drawObjects (globals a)) in
  0 ≤ ctx_imageIndex ctx < 2 ^ 32 →
  0 ≤ other < 2 ^ 32 →
  other ≠ ctx_imageIndex ctx →
  0 ≤ i < n →
  length (uniformBuffer a') = length (uniformBuffer a) ∧
  uniformBuffer a' !! Z.to_nat (uniform_slot other n i) =
  uniformBuffer a !! Z.to_nat (uniform_slot other n i).
Proof.
  intros H n Hii Hother Hne Hi.
  apply render_Ok in H as (a1 & Hw & (Eg & Eu & Ev & Ep)).
  pose proof (write_uniforms_frame _ _ _ _ _ Hw) as (_ & _ & Elen).
  apply write_uniforms_Ok in Hw as (_ & _ & _ & _ & _ & Hlen & _ & Hkeep); [|done].
  simpl in *. rewrite Eu. split; [done|].
  rewrite Hkeep; [done|].
  intros j Hj E. apply Z2Nat.inj in E; try apply size_t_nonneg.
  unfold uniform_slot, size_t, INT_MAX, vec_size in *. subst n.
  rewrite !Z.mod_small in E by nia. nia.
Qed.

(** * The initialisation callback and [main] *)

Lemma zoom_Ok {S T A : Type} (get : S → T) (set : T → S → S) (m : M T A) s a s' :
  zoom get set m s = Ok a s' ↔ ∃ t, m (get s) = Ok a t ∧ s' = set t s.
Proof.
  unfold zoom. destruct (m (get s)) as [b t| | |]; split; try done.
  - intros [= -> <-]. eauto.
  - by intros (t' & [= -> ->] & ->).
  - by intros (t' & ? & _).
  - by intros (t' & ? & _).
  - by intros (t' & ? & _).
Qed.

Lemma copy_to_mapped_Ok {S A : Type} (v : list A) bytes elem (s : S) w s' :
  copy_to_mapped v bytes elem s = Ok w s' ↔
  vec_size v ≤ bytes / elem ∧ w = v ∧ s' = s.
Proof.
  unfold copy_to_mapped. destruct (decide _).
  - rewrite ret_Ok. tauto.
  - split; [done | tauto].
Qed.

Lemma push_framebuffers_Ok (createFramebuffer : Z → Z) views s s' :
  for_each views (fun imageView =>
    in_app (modify (fun a =>
      {| globals := globals a; viewMtx := viewMtx a; projMtx := projMtx a;
         width := width a; height := height a; uniformBuffer := uniformBuffer a;
         framebuffers := framebuffers a ++ [createFramebuffer imageView];
         recorded := recorded a |}))) s = Ok tt s' →
  frames_keep s s' ∧
  uniformBuffer (application s') = uniformBuffer (application s) ∧
  recorded (application s') = recorded (application s) ∧
  width (application s') = width (application s) ∧
  height (application s') = height (application s) ∧
  framebuffers (application s') =
    framebuffers (application s) ++ (createFramebuffer <$> views).
Proof.
  revert s. induction views as [|v views IH]; intros s H; simpl in H.
  - apply ret_Ok in H as [_ ->]. simpl. rewrite app_nil_r. by repeat split.
  - apply bind_Ok in H as ([] & s1 & H1 & H).
    apply zoom_Ok in H1 as (t & Ht & ->). apply modify_Ok in Ht as ->.
    apply IH in H as ((?&?&?&?&?&?) & ? & ? & ? & ? & Ef). simpl in *.
    split; [by repeat split|]. repeat split; try done.
    rewrite Ef, <- app_assoc. done.
Qed.

(** The initialisation callback in closed form. *)
Lemma init_Ok views createFramebuffer junk s s' :
  init views createFramebuffer junk s = Ok tt s' →
  let g := globals (application s) in
  let bytes :=
    size_t (size_t (sizeof_ShaderUniform * vec_size views) * vec_size (drawObjects g)) in
  globals (application s') = g ∧
  vertexBuffer s' = vertices g ∧
  indexBuffer s' = indicies g ∧
  vertexShader s' = vertexShader s ∧
  fragmentShader s' = fragmentShader s ∧
  uniformBuffer (application s') =
    junk <$> seq 0 (Z.to_nat (bytes / sizeof_ShaderUniform)) ∧
  framebuffers (application s') =
    framebuffers (application s) ++ (createFramebuffer <$> views) ∧
  recorded (application s') = recorded (application s) ∧
  width (application s') = width (application s) ∧
  height (application s') = height (application s) ∧
  pipeline s' = pipeline s ++
    pipeline_calls (fragmentShader s) (vertexShader s)
      (width (application s)) (height (application s)).
Proof.
  unfold init. intros H.
  repeat (first
    [ match goal with
      | H : bind _ _ _ = Ok _ _ |- _ =>
          apply bind_Ok in H; destruct H as (? & ? & ? & H)
      | H : gets _ _ = Ok _ _ |- _ => apply gets_Ok in H; destruct H as [-> ->]
      | H : modify _ _ = Ok _ _ |- _ => apply modify_Ok in H; subst
      | H : copy_to_mapped _ _ _ _ = Ok _ _ |- _ =>
          apply copy_to_mapped_Ok in H as (_ & -> & ->)
      | H : in_app _ _ = Ok _ _ |- _ =>
          apply zoom_Ok in H as (? & H & ->); apply modify_Ok in H as ->
      | H : pipeline_call _ _ = Ok _ _ |- _ =>
          unfold pipeline_call in H; apply modify_Ok in H as ->
      | u : unit |- _ => destruct u
      end ];
    cbn [application vertexShader fragmentShader vertexBuffer indexBuffer pipeline
         set_app set_uniformBuffer globals viewMtx projMtx width height
         uniformBuffer framebuffers recorded] in *).
  apply push_framebuffers_Ok in H
    as ((Eg & Ev & Ei & Evs & Efs & Ep) & Eu & Er & Ew & Eh & Ef).
  cbn [application vertexShader fragmentShader vertexBuffer indexBuffer pipeline
       set_app set_uniformBuffer globals viewMtx projMtx width height
       uniformBuffer framebuffers recorded] in *.
  rewrite Eg, Ev, Ei, Evs, Efs, Ep, Eu, Er, Ew, Eh, Ef.
  repeat split; try done.
  rewrite <- !app_assoc. done.
Qed.

Lemma uniform_slots_count k n :
  0 ≤ k → 0 ≤ n → sizeof_ShaderUniform * k * n < 2 ^ 64 →
  size_t (size_t (sizeof_ShaderUniform * k) * n) / sizeof_ShaderUniform = k * n.
Proof.
  unfold size_t, sizeof_ShaderUniform. intros Hk Hn Hfit.
  destruct (decide (n = 0)) as [->|Hn0].
  - rewrite !Z.mul_0_r. done.
  - rewrite (Z.mod_small (128 * k)) by nia.
    rewrite Z.mod_small by nia.
    replace (128 * k * n) with (k * n * 128) by lia.
    apply Z.div_mul. lia.
Qed.

(** X9.  The initialisation callback uploads the two buffers verbatim,
    leaves the loader's vectors alone, allocates a uniform buffer of exactly
    [images * drawObjects.size()] slots (when that many bytes fit a
    [size_t]) and appends one framebuffer per swapchain image view, in the
    order of the views. *)
Theorem init_uploads views createFramebuffer junk s s' :
  init views createFramebuffer junk s = Ok tt s' →
  let g := globals (application s) in
  globals (application s') = g ∧
  vertexBuffer s' = vertices g ∧
  indexBuffer s' = indicies g ∧
  framebuffers (application s') =
    framebuffers (application s) ++ (createFramebuffer <$> views) ∧
  (sizeof_ShaderUniform * vec_size views * vec_size (drawObjects g) < 2 ^ 64 →
   vec_size (uniformBuffer (application s')) = vec_size views * vec_size (drawObjects g)).
Proof.
  intros H. apply init_Ok in H
    as (Eg & Ev & Ei & _ & _ & Eu & Ef & _). cbn zeta in *.
  repeat split; try done.
  intros Hfit. rewrite Eu. unfold vec_size at 1.
  rewrite length_fmap, length_seq.
  rewrite uniform_slots_count by (try done; unfold vec_size; lia).
  unfold vec_size. lia.
Qed.

(** ** When a frame is defined *)

Lemma bind_defined {S A B : Type} (m : M S A) (k : A → M S B) s a s1 :
  m s = Ok a s1 → (∃ b s', k a s1 = Ok b s') → ∃ b s', bind m k s = Ok b s'.
Proof. intros Hm (b & s' & Hk). exists b, s'. apply bind_Ok. eauto. Qed.

Lemma write_uniform_defined ctx cmd i a :
  (Z.to_nat (uniform_slot (ctx_imageIndex ctx) (vec_size (drawObjects (globals a))) i)
   < length (uniformBuffer a))%nat →
  ∃ a', write_uniform ctx cmd i a = Ok tt a'.
Proof.
  intros Hin. apply lookup_lt_is_Some_2 in Hin as [old Hold].
  unfold write_uniform, bind, gets, checked, modify, vec_at.
  rewrite decide_True by apply size_t_nonneg. rewrite Hold. eauto.
Qed.

Lemma write_uniforms_defined ctx xs i0 a :
  0 ≤ i0 → i0 + Z.of_nat (length xs) ≤ INT_MAX →
  (∀ j, i0 ≤ j < i0 + Z.of_nat (length xs) →
     (Z.to_nat (uniform_slot (ctx_imageIndex ctx)
                  (vec_size (drawObjects (globals a))) j)
      < length (uniformBuffer a))%nat) →
  ∃ a', for_each_counting xs i0 (write_uniform ctx) a = Ok tt a'.
Proof.
  revert i0 a. induction xs as [|x xs IH]; intros i0 a H0 Hmax Hin.
  - simpl. eauto.
  - cbn [length] in *.
    destruct (write_uniform_defined ctx x i0 a) as [a1 H1]; [apply Hin; lia|].
    pose proof (write_uniform_frame _ _ _ _ _ H1) as (_ & _ & Elen).
    pose proof (write_uniform_Ok _ _ _ _ _ H1) as (Eg & _).
    destruct (IH (i0 + 1) a1) as [a' H']; [lia|lia| |].
    { intros j Hj. rewrite Eg, Elen. apply Hin. lia. }
    exists a'. cbn [for_each_counting]. apply bind_Ok. exists tt, a1. split; [done|].
    apply bind_Ok. exists (i0 + 1), a1. split; [|done].
    apply int_incr_Ok. split; [unfold INT_MAX in *; lia | done].
Qed.

Lemma record_draws_defined ctx xs i0 a :
  i0 + Z.of_nat (length xs) ≤ INT_MAX →
  ∃ a', for_each_counting xs i0 (record_draw ctx) a = Ok tt a'.
Proof.
  revert i0 a. induction xs as [|x xs IH]; intros i0 a Hmax.
  - simpl. eauto.
  - cbn [length] in *.
    assert (∃ a1, record_draw ctx x i0 a = Ok tt a1) as [a1 H1].
    { unfold record_draw, bind, gets, record_cmd, modify. eauto. }
    destruct (IH (i0 + 1) a1) as [a' H']; [lia|].
    exists a'. cbn [for_each_counting]. apply bind_Ok. exists tt, a1. split; [done|].
    apply bind_Ok. exists (i0 + 1), a1. split; [|done].
    apply int_incr_Ok. split; [unfold INT_MAX in *; lia | done].
Qed.

(** The callback returns when the draw counter fits an [int], the slots it
    writes are inside the uniform buffer and the frame's image has a
    framebuffer. *)
Lemma render_defined ctx a :
  let n := vec_size (drawObjects (globals a)) in
  n ≤ INT_MAX →
  (∀ j, 0 ≤ j < n →
     (Z.to_nat (uniform_slot (ctx_imageIndex ctx) n j) < length (uniformBuffer a))%nat) →
  is_Some (vec_at (framebuffers a) (ctx_imageIndex ctx)) →
  ∃ a', render ctx a = Ok tt a'.
Proof.
  intros n Hmax Hin [fb Hfb]. unfold render.
  set (a0 := set_projMtx (flip_y (frame_perspective (width a) (height a)))
               (set_viewMtx (frame_view (ctx_time ctx)) a)).
  destruct (write_uniforms_defined ctx (drawObjects (globals a)) 0 a0) as [a1 H1];
    [done | unfold vec_size in *; subst n; lia | intros j Hj; apply Hin; done |].
  pose proof (write_uniforms_frame _ _ _ _ _ H1) as (Ef & _ & _).
  pose proof (write_uniforms_Ok _ _ _ _ _ (Z.le_refl 0) H1) as (Eg & _).
  change (framebuffers a0) with (framebuffers a) in Ef.
  change (globals a0) with (globals a) in Eg.
  set (a2 := {| globals := globals a1; viewMtx := viewMtx a1; projMtx := projMtx a1;
                width := width a1; height := height a1;
                uniformBuffer := uniformBuffer a1; framebuffers := framebuffers a1;
                recorded := recorded a1 ++ [CmdBegin] |}).
  set (a3 := {| globals := globals a1; viewMtx := viewMtx a1; projMtx := projMtx a1;
                width := width a1; height := height a1;
                uniformBuffer := uniformBuffer a1; framebuffers := framebuffers a1;
                recorded := recorded a1 ++
                  [CmdBegin; CmdBeginRenderPass fb (uint32_t (width a)) (uint32_t (height a));
                   CmdBindPipeline; CmdBindVertexBuffer 0; CmdBindIndexBuffer 0] |}).
  destruct (record_draws_defined ctx (drawObjects (globals a)) 0 a3) as [a4 H4];
    [unfold vec_size in *; subst n; lia|].
  assert (∃ a', record_cmd CmdEndRenderPass a4 = Ok tt a' ∧
                ∃ a'', record_cmd CmdEnd a' = Ok tt a'') as (a5 & H5 & a6 & H6).
  { unfold record_cmd, modify. eauto. }
  exists a6.
  apply bind_Ok. exists (width a), a. split; [done|].
  apply bind_Ok. exists (height a), a. split; [done|].
  apply bind_Ok. eexists tt, _. split; [reflexivity|].
  apply bind_Ok. eexists tt, _. split; [reflexivity|].
  apply bind_Ok. exists tt, a0. split; [reflexivity|].
  apply bind_Ok. exists (drawObjects (globals a)), a0. split; [done|].
  apply bind_Ok. exists tt, a1. split; [exact H1|].
  apply bind_Ok. exists tt, a2. split; [reflexivity|].
  apply bind_Ok. exists fb, a2. split.
  { unfold bind, gets, checked. cbn [framebuffers a2]. by rewrite Ef, Hfb. }
  apply bind_Ok. eexists tt, _. split; [reflexivity|].
  apply bind_Ok. eexists tt, _. split; [reflexivity|].
  apply bind_Ok. eexists tt, _. split; [reflexivity|].
  apply bind_Ok. exists tt, a3. split.
  { unfold record_cmd, modify. cbn. by rewrite <- !app_assoc. }
  apply bind_Ok. exists (drawObjects (globals a)), a3. split.
  { unfold gets. cbn [globals a3]. by rewrite Eg. }
  apply bind_Ok. exists tt, a4. split; [exact H4|].
  apply bind_Ok. exists tt, a5. split; [exact H5|exact H6].
Qed.

Lemma render_framebuffer ctx a a' :
  render ctx a = Ok tt a' → is_Some (vec_at (framebuffers a) (ctx_imageIndex ctx)).
Proof. intros H. apply render_log in H as (fb & Hfb & _). by exists fb. Qed.

(** X10.  After the initialisation callback has run for the swapchain's
    image views (with no framebuffer made before, a number of draw commands
    that fits an [int] and a uniform allocation that fits a [size_t]), a
    frame returns exactly when its image index is one of the swapchain's:
    every slot the frame writes is inside the uniform buffer, and any other
    index subscripts [framebuffers] out of range. *)
Theorem frame_after_init views createFramebuffer junk s s1 ctx :
  init views createFramebuffer junk s = Ok tt s1 →
  let n := vec_size (drawObjects (globals (application s))) in
  framebuffers (application s) = [] →
  n ≤ INT_MAX →
  sizeof_ShaderUniform * vec_size views * n < 2 ^ 64 →
  (∃ a', render ctx (application s1) = Ok tt a') ↔
  0 ≤ ctx_imageIndex ctx < vec_size views.
Proof.
  intros H n Hfb0 Hmax Hfit.
  apply init_Ok in H as (Eg & _ & _ & _ & _ & Eu & Ef & _). cbn zeta in *.
  rewrite Hfb0, app_nil_l in Ef.
  assert (Hlen : Z.of_nat (length (uniformBuffer (application s1))) = vec_size views * n).
  { rewrite Eu, length_fmap, length_seq.
    rewrite uniform_slots_count by (try done; unfold vec_size; lia).
    subst n. unfold vec_size. lia. }
  split.
  - intros [a' Hr]. apply render_framebuffer in Hr as [fb Hr].
    apply vec_at_Some in Hr as [H0 Hr]. split; [done|].
    apply lookup_lt_Some in Hr. rewrite Ef, length_fmap in Hr.
    unfold vec_size. lia.
  - intros Hii. apply render_defined.
    + by rewrite Eg.
    + rewrite Eg. fold n. intros j Hj.
      assert (uniform_slot (ctx_imageIndex ctx) n j = ctx_imageIndex ctx * n + j) as ->.
      { unfold uniform_slot, size_t, sizeof_ShaderUniform in *.
        apply Z.mod_small. unfold vec_size in *. nia. }
      unfold vec_size in *. nia.
    + rewrite Ef. unfold vec_at. rewrite decide_True by lia.
      apply lookup_lt_is_Some_2. rewrite length_fmap. unfold vec_size in *. lia.
Qed.

(** ** [main] *)

Lemma load_shader_file_Ok files src_dir s :
  load_shader_file files src_dir s = Ok tt (with_shaders files src_dir s).
Proof. reflexivity. Qed.

#[local] Instance frames_keep_preorder : PreOrder frames_keep.
Proof.
  split; [by intros x | intros x y z (?&?&?&?&?&?) (?&?&?&?&?&?)].
  unfold frames_keep. repeat split; congruence.
Qed.

Lemma render_in_main_keeps ctx s s' :
  in_app (render ctx) s = Ok tt s' → frames_keep s s'.
Proof.
  intros (a' & Hr & ->)%zoom_Ok. apply render_same_globals in Hr.
  unfold frames_keep. by repeat split.
Qed.

(** X11.  When the loader reported an error or returned failure, [main]
    ends by the exception, having read the shader files and done nothing
    else: no buffer is allocated, no pipeline call made, no frame
    rendered. *)
Theorem main_stops_on_load_failure fuel files src_dir l views createFramebuffer junk
    frames s :
  loaded_err l ≠ ""%string ∨ loaded_ret l = false →
  ∃ msg,
    main fuel files src_dir l views createFramebuffer junk frames s =
    Threw msg (with_shaders files src_dir s).
Proof.
  intros Hfail. destruct s as [[] ? ? ? ? ?].
  unfold main. unfold bind at 1. rewrite load_shader_file_Ok.
  unfold bind at 1, in_app, in_globals, zoom.
  rewrite load_gltf_model_cases.
  destruct (str_empty (loaded_err l)) eqn:Eerr; cbn [negb].
  - destruct (loaded_ret l) eqn:Eret; cbn [negb].
    + apply str_empty_true in Eerr. by destruct Hfail.
    + eexists. reflexivity.
  - eexists. reflexivity.
Qed.

(** X12.  When [main] returns, the loader returned some [g]; the loader's
    vectors are still [g] after all the frames; the GPU vertex and index
    buffers hold [g]'s vertices and indices; and the pipeline was given the
    contents of [fragment.glsl] as fragment shader and of [vertex.glsl] as
    vertex shader (the empty string for a file that is missing), between
    the vertex layout and the viewport. *)
Theorem main_uploads_what_was_loaded fuel files src_dir l views createFramebuffer junk
    frames s s' :
  main fuel files src_dir l views createFramebuffer junk frames s = Ok tt s' →
  ∃ g,
    load_gltf_model fuel l (globals (application s)) = Ok tt g ∧
    globals (application s') = g ∧
    vertexBuffer s' = vertices g ∧
    indexBuffer s' = indicies g ∧
    pipeline s' = pipeline s ++
      pipeline_calls
        (read_file files (src_dir +:+ "/sample/1_glTFViewer/fragment.glsl"))
        (read_file files (src_dir +:+ "/sample/1_glTFViewer/vertex.glsl"))
        (width (application s)) (height (application s)).
Proof.
  unfold main, Run. intros H.
  apply bind_Ok in H as ([] & s0 & H0 & H).
  rewrite load_shader_file_Ok in H0. injection H0 as <-.
  apply bind_Ok in H as ([] & s1 & H1 & H).
  apply zoom_Ok in H1 as (a1 & H1 & ->).
  apply zoom_Ok in H1 as (g & H1 & ->).
  apply bind_Ok in H as ([] & s2 & H2 & H).
  apply bind_Ok in H as ([] & s3 & H3 & H).
  apply ret_Ok in H as [_ ->].
  apply init_Ok in H2 as (Eg & Ev & Ei & _ & _ & _ & _ & _ & _ & _ & Ep).
  apply (for_each_rel frames_keep) in H3 as (Eg' & Ev' & Ei' & _ & _ & Ep');
    [|intros ctx t t' _; apply render_in_main_keeps].
  cbn in *. exists g. split; [done|].
  rewrite Eg', Ev', Ei', Ep', Eg, Ev, Ei, Ep. done.
Qed.

(** * The traversal, node by node *)

(** ** The visit is the depth-first traversal *)

Lemma for_each_cons_Ok {S A : Type} (x : A) (xs : list A) (body : A → M S unit) s s' :
  for_each (x :: xs) body s = Ok tt s' ↔
  ∃ s1, body x s = Ok tt s1 ∧ for_each xs body s1 = Ok tt s'.
Proof.
  simpl. split.
  - intros H. apply bind_Ok in H as ([] & s1 & H1 & H2). eauto.
  - intros (s1 & H1 & H2). unfold bind. by rewrite H1.
Qed.

Lemma load_gltf_node_unfold fuel model nodeId node tr g g1 :
  vec_at (nodes model) nodeId = Some node →
  load_node_mesh model node (mat4_mul (node_matrix node) tr) g = Ok tt g1 →
  load_gltf_node (S fuel) model nodeId tr g =
  for_each (children node)
    (fun c => load_gltf_node fuel model c (mat4_mul (node_matrix node) tr)) g1.
Proof.
  intros Hnode Hmesh. cbn [load_gltf_node].
  unfold bind at 1. unfold checked at 1. rewrite Hnode.
  unfold bind at 1. unfold checked at 1. rewrite local_transform_node_matrix.
  unfold bind at 1. by rewrite Hmesh.
Qed.

Lemma for_each_depth_first model fuel :
  (∀ c tr g g', load_gltf_node fuel model c tr g = Ok tt g' → depth_first model c tr g g') →
  ∀ cs tr g g',
    for_each cs (fun c => load_gltf_node fuel model c tr) g = Ok tt g' →
    depth_first_all model cs tr g g'.
Proof.
  intros IH. induction cs as [|c cs IHcs]; intros tr g g' H.
  - simpl in H. apply ret_Ok in H as [_ ->]. constructor.
  - apply for_each_cons_Ok in H as (g1 & H1 & H2).
    econstructor; [by apply IH | by apply IHcs].
Qed.

(** Whatever a visit returns, the depth-first traversal gives. *)
Lemma load_gltf_node_depth_first model fuel nodeId tr g g' :
  load_gltf_node fuel model nodeId tr g = Ok tt g' → depth_first model nodeId tr g g'.
Proof.
  revert nodeId tr g g'. induction fuel as [|fuel IH]; intros nodeId tr g g' H; [done|].
  apply load_gltf_node_step in H as (node & g1 & Hnode & Hmesh & Hkids).
  econstructor; [done..|]. by eapply for_each_depth_first.
Qed.

(** And what the depth-first traversal gives, a visit with enough fuel
    returns. *)
Lemma depth_first_runs model :
  (∀ nodeId tr g g', depth_first model nodeId tr g g' →
     ∃ fuel, ∀ fuel', (fuel ≤ fuel')%nat →
       load_gltf_node fuel' model nodeId tr g = Ok tt g') ∧
  (∀ cs tr g g', depth_first_all model cs tr g g' →
     ∃ fuel, ∀ fuel', (fuel ≤ fuel')%nat →
       for_each cs (fun c => load_gltf_node fuel' model c tr) g = Ok tt g').
Proof.
  apply depth_first_mutind.
  - intros nodeId node tr g g1 g' Hnode Hmesh _ [fuel IH].
    exists (S fuel). intros [|fuel'] Hle; [lia|].
    rewrite (load_gltf_node_unfold _ _ _ _ _ _ _ Hnode Hmesh). apply IH. lia.
  - intros tr g. exists 0%nat. intros fuel' _. reflexivity.
  - intros c cs tr g g1 g' _ [f1 IH1] _ [f2 IH2].
    exists (f1 `max` f2)%nat. intros fuel' Hle. apply for_each_cons_Ok.
    exists g1. split; [apply IH1 | apply IH2]; lia.
Qed.

Lemma load_node_mesh_grows model node tr g g' :
  load_node_mesh model node tr g = Ok tt g' → grows g g'.
Proof. apply (load_node_mesh_rel grows model (load_primitive_grows model)). Qed.

Lemma load_gltf_node_grows model fuel nodeId tr g g' :
  load_gltf_node fuel model nodeId tr g = Ok tt g' → grows g g'.
Proof. apply (load_gltf_node_rel grows model (load_primitive_grows model)). Qed.

Lemma depth_first_grows model nodeId tr g g' :
  depth_first model nodeId tr g g' → grows g g'.
Proof.
  intros H. apply (proj1 (depth_first_runs model)) in H as [fuel H].
  eapply load_gltf_node_grows, (H fuel). lia.
Qed.

Lemma depth_first_all_grows model cs tr g g' :
  depth_first_all model cs tr g g' → grows g g'.
Proof.
  intros H. apply (proj2 (depth_first_runs model)) in H as [fuel H].
  eapply (for_each_rel grows), (H fuel (le_n _)).
  intros c s s' _ Hc. eapply load_gltf_node_grows, Hc.
Qed.

(** Every child in the list is visited, between the state the list was
    entered with and the state it was left with. *)
Lemma depth_first_all_child model cs tr g g' c :
  depth_first_all model cs tr g g' →
  c ∈ cs →
  ∃ g1 g2, grows g g1 ∧ depth_first model c tr g1 g2 ∧ grows g2 g'.
Proof.
  induction 1 as [tr g | c0 cs tr g g1 g' Hc0 Hcs IH]; intros Hin.
  - by apply not_elem_of_nil in Hin.
  - apply elem_of_cons in Hin as [->|Hin].
    + exists g, g1. split; [reflexivity|]. split; [done|].
      by eapply depth_first_all_grows.
    + destruct (IH Hin) as (ga & gb & Hga & Hc & Hgb).
      exists ga, gb. split; [|done].
      etransitivity; [by eapply depth_first_grows | done].
Qed.

(** The mesh of the node a path leads to is loaded during the visit of the
    path's first node, with the transform accumulated along the path. *)
Lemma depth_first_covers model a path :
  descent model a path →
  ∀ b tr g g',
    last path = Some b →
    depth_first model a tr g g' →
    ∃ node trb g1 g2,
      vec_at (nodes model) b = Some node ∧
      accumulated model tr path = Some trb ∧
      grows g g1 ∧ load_node_mesh model node trb g1 = Ok tt g2 ∧ grows g2 g'.
Proof.
  induction 1 as [top | top child rest Hchild Hrest IH]; intros b tr g g' Hlast Hdf;
    inversion Hdf as [? node ? ? g1 ? Hnode Hmesh Hall]; subst.
  - simpl in Hlast. injection Hlast as <-.
    exists node, (mat4_mul (node_matrix node) tr), g, g1.
    split; [done|]. split; [simpl; by rewrite Hnode|].
    split; [reflexivity|]. split; [done|]. by eapply depth_first_all_grows.
  - destruct Hchild as (node' & Hnode' & Hin).
    assert (node' = node) as -> by congruence.
    destruct (depth_first_all_child _ _ _ _ _ _ Hall Hin) as (ga & gb & Hga & Hc & Hgb).
    assert (last rest = Some b) as Hlast' by (destruct Hrest; done).
    destruct (IH b _ ga gb Hlast' Hc) as (nb & trb & gc & gd & Hnb & Hacc & Hgc & Hrun & Hgd).
    exists nb, trb, gc, gd. split; [done|].
    split; [simpl; rewrite Hnode; done|].
    split; [|split; [done | by etransitivity]].
    etransitivity; [by eapply load_node_mesh_grows|]. by etransitivity.
Qed.

Lemma rtc_descent model a b :
  rtc (child_of model) a b → ∃ path, descent model a path ∧ last path = Some b.
Proof.
  induction 1 as [a | a c b Hac _ (path & Hpath & Hlast)].
  - exists [a]. split; [constructor | done].
  - exists (a :: path). split; [by econstructor|].
    destruct Hpath; done.
Qed.


(** ** Relations kept by the primitives of the document *)

Lemma load_node_mesh_rel_in (R : relation Globals) `{!PreOrder R} model :
  (∀ m tr prim g g', m ∈ meshes model → prim ∈ primitives m →
     load_primitive model tr prim g = Ok tt g' → R g g') →
  ∀ node tr g g', load_node_mesh model node tr g = Ok tt g' → R g g'.
Proof.
  intros Hprim node tr g g' H. unfold load_node_mesh in H.
  destruct (decide (0 ≤ mesh node)).
  - apply bind_Ok in H as (m & g1 & [Hm ->]%checked_Ok & H).
    apply bind_Ok in H as ([] & g2 & [_ ->]%ret_Ok & H).
    eapply (for_each_rel R); [|done]. intros prim s s' Hin Hrun.
    eapply Hprim; [|done..].
    apply vec_at_Some in Hm as [_ Hm]. by eapply list_elem_of_lookup_2.
  - apply ret_Ok in H as [_ ->]. reflexivity.
Qed.

Lemma load_gltf_node_rel_in (R : relation Globals) `{!PreOrder R} model :
  (∀ m tr prim g g', m ∈ meshes model → prim ∈ primitives m →
     load_primitive model tr prim g = Ok tt g' → R g g') →
  ∀ fuel nodeId tr g g', load_gltf_node fuel model nodeId tr g = Ok tt g' → R g g'.
Proof.
  intros Hprim. induction fuel as [|fuel IH]; intros nodeId tr g g' H; [done|].
  apply load_gltf_node_step in H as (node & g1 & _ & Hmesh & Hkids).
  apply (load_node_mesh_rel_in R model Hprim) in Hmesh.
  etransitivity; [done|].
  eapply (for_each_rel R); [|done]. intros c s s' _ Hc. eapply IH, Hc.
Qed.

Lemma load_gltf_model_rel_in (R : relation Globals) `{!PreOrder R} l :
  (∀ m tr prim g g', m ∈ meshes (loaded_model l) → prim ∈ primitives m →
     load_primitive (loaded_model l) tr prim g = Ok tt g' → R g g') →
  ∀ fuel g g', load_gltf_model fuel l g = Ok tt g' → R g g'.
Proof.
  intros Hprim fuel g g' H. unfold load_gltf_model in H.
  destruct (str_empty (loaded_warn l)); simpl in H;
  destruct (str_empty (loaded_err l)); simpl in H; try done;
  destruct (loaded_ret l); simpl in H; try done; inv_ok;
  (eapply (for_each_rel R); [|done]); intros c s s' _ Hc;
  eapply (load_gltf_node_rel_in R), Hc; done.
Qed.

#[local] Instance keeps_indices_preorder (P : Z → Prop) :
  PreOrder (fun g g' : Globals => Forall P (indicies g) → Forall P (indicies g')).
Proof. split; [by intros g | intros g1 g2 g3 H1 H2 H; auto]. Qed.

(** What one primitive appends to the index buffer: one element per element
    of its index accessor, each the two bytes found there, low byte first. *)
Lemma load_primitive_indices model tr prim g g' :
  load_primitive model tr prim g = Ok tt g' →
  ∃ ia iv ib xs,
    accessor_data model (indices prim) = Some (ia, iv, ib) ∧
    indicies g' = indicies g ++ xs ∧
    length xs = N.to_nat (acc_count ia) ∧
    ∀ (i : nat) x, xs !! i = Some x →
      0 ≤ x < 65536 ∧
      ∃ b0 b1,
        read_bytes (buf_data ib)
          (element_offset iv ia (size_t (ByteStride ia iv)) (Z.of_nat i)) 2
          = Some [b0; b1] ∧
        x = byte_val b0 + 256 * byte_val b1.
Proof.
  intros H. apply load_primitive_Ok in H
    as (pa & pv & pb & ia & iv & ib & vs & xs & _ & Hi & _ & Hxs & ->).
  exists ia, iv, ib, xs. split; [done|]. split; [done|]. split.
  - apply Forall2_length in Hxs. rewrite length_seqZ in Hxs. lia.
  - intros i x Hx.
    destruct (Forall2_lookup_r _ _ _ _ _ Hxs Hx) as (k & Hk & Hkx).
    apply lookup_seqZ in Hk as [-> _]. rewrite Z.add_0_l in Hkx.
    split; [by eapply index_of_bound | by apply index_of_Some in Hkx].
Qed.

Lemma load_primitive_index_from model m tr prim g g' :
  m ∈ meshes model → prim ∈ primitives m →
  load_primitive model tr prim g = Ok tt g' →
  Forall (index_from model) (indicies g) → Forall (index_from model) (indicies g').
Proof.
  intros Hm Hprim H Hg.
  apply load_primitive_indices in H as (ia & iv & ib & xs & Hacc & -> & Hlen & Hxs).
  apply Forall_app. split; [done|].
  apply Forall_lookup. intros i x Hx.
  destruct (Hxs i x Hx) as (_ & b0 & b1 & Hread & ->).
  exists m, prim, ia, iv, ib, (Z.of_nat i), b0, b1.
  split; [done|]. split; [done|]. split; [done|]. split; [|done].
  apply lookup_lt_Some in Hx. lia.
Qed.

(** The commands a list of primitives appends, in the primitives' order. *)
Lemma load_primitives_commands model tr prims g g' :
  for_each prims (load_primitive model tr) g = Ok tt g' →
  ∃ ds, drawObjects g' = drawObjects g ++ ds ∧
        Forall2 (command_of model tr) prims ds.
Proof.
  revert g. induction prims as [|prim prims IH]; intros g H.
  - simpl in H. apply ret_Ok in H as [_ ->]. exists []. by rewrite app_nil_r.
  - apply for_each_cons_Ok in H as (g1 & H1 & H).
    apply load_primitive_Ok in H1
      as (pa & pv & pb & ia & iv & ib & vs & xs & _ & Hi & _ & _ & ->).
    apply IH in H as (ds & Eds & Hall). simpl in Eds.
    eexists (_ :: ds). split; [by rewrite Eds, <- app_assoc|].
    constructor; [|done]. by exists ia, iv, ib.
Qed.

(** ** Termination, index values, mesh-less nodes and the order of commands *)

(** C8.  When no node reachable from [nodeId] is its own descendant, the
    visit of [nodeId] terminates: with fuel beyond the number of nodes it
    never runs out of fuel, and its outcome no longer depends on the fuel.
    If moreover the document refers only to things that exist, the outcome
    is a normal return.  What it returns is what the depth-first traversal
    gives, and nothing else; and every node reachable from [nodeId] has been
    visited: its mesh was loaded, with the transform accumulated along a path
    down to it, at some moment between the entry and the return. *)
Theorem load_gltf_node_terminates model nodeId :
  acyclic_from model nodeId →
  ∃ fuel, ∀ fuel' tr g,
    (fuel ≤ fuel')%nat →
    load_gltf_node fuel' model nodeId tr g ≠ OutOfFuel ∧
    load_gltf_node fuel' model nodeId tr g = load_gltf_node fuel model nodeId tr g ∧
    (model_in_range model → is_Some (vec_at (nodes model) nodeId) →
     ∃ g', load_gltf_node fuel' model nodeId tr g = Ok tt g') ∧
    (∀ g', load_gltf_node fuel' model nodeId tr g = Ok tt g' ↔
           depth_first model nodeId tr g g') ∧
    (∀ g' b,
       load_gltf_node fuel' model nodeId tr g = Ok tt g' →
       rtc (child_of model) nodeId b →
       ∃ path node trb g1 g2,
         descent model nodeId path ∧ last path = Some b ∧
         vec_at (nodes model) b = Some node ∧
         accumulated model tr path = Some trb ∧
         grows g g1 ∧ load_node_mesh model node trb g1 = Ok tt g2 ∧ grows g2 g').
Proof.
  intros Hacyc. exists (S (length (nodes model))). intros fuel' tr g Hle.
  assert (Hs : ∀ f, (S (length (nodes model)) ≤ f)%nat →
    settled (model_in_range model ∧ is_Some (vec_at (nodes model) nodeId))
            (load_gltf_node f model nodeId tr g)).
  { intros f Hf. apply (load_gltf_node_settled model nodeId Hacyc f nodeId []).
    - done.
    - constructor.
    - intros a Ha. by apply not_elem_of_nil in Ha.
    - simpl. lia. }
  assert (Hfuel : load_gltf_node fuel' model nodeId tr g ≠ OutOfFuel).
  { intros E. specialize (Hs fuel' Hle). by rewrite E in Hs. }
  split; [done|]. split; [|split; [|split]].
  - apply load_gltf_node_more_fuel; [done|].
    intros E. specialize (Hs _ (le_n _)). by rewrite E in Hs.
  - intros Hall Hvalid.
    destruct (settled_Ok _ _ (Hs fuel' Hle) (conj Hall Hvalid)) as ([] & g' & E).
    eauto.
  - intros g'. split; [apply load_gltf_node_depth_first|].
    intros H. apply (proj1 (depth_first_runs model)) in H as [f H].
    rewrite <- (load_gltf_node_more_fuel model fuel' (f `max` fuel') nodeId tr g)
      by (done || lia).
    apply H. lia.
  - intros g' b H Hreach.
    apply load_gltf_node_depth_first in H.
    destruct (rtc_descent _ _ _ Hreach) as (path & Hpath & Hlast).
    destruct (depth_first_covers _ _ _ Hpath b tr g g' Hlast H)
      as (node & trb & g1 & g2 & ?). by exists path, node, trb, g1, g2.
Qed.

(** C9.  Every element of the flattened index buffer is below 65536, because
    of where it comes from.  A primitive appends one element per element of
    its index accessor, and each is the unsigned value of the two bytes read
    at that element of the accessor's data, low byte first, widened as it
    is; the component type the accessor declares plays no part.  So after
    [load_gltf_model] every element of [indicies] is below 65536 and is
    such a two-byte read from the index accessor of a primitive of the
    document. *)
Theorem indices_below_65536 :
  (∀ model tr prim g g',
     load_primitive model tr prim g = Ok tt g' →
     ∃ ia iv ib xs,
       accessor_data model (indices prim) = Some (ia, iv, ib) ∧
       indicies g' = indicies g ++ xs ∧
       length xs = N.to_nat (acc_count ia) ∧
       ∀ (i : nat) x, xs !! i = Some x →
         0 ≤ x < 65536 ∧
         ∃ b0 b1,
           read_bytes (buf_data ib)
             (element_offset iv ia (size_t (ByteStride ia iv)) (Z.of_nat i)) 2
             = Some [b0; b1] ∧
           x = byte_val b0 + 256 * byte_val b1) ∧
  (∀ fuel l g',
     load_gltf_model fuel l initial_globals = Ok tt g' →
     Forall (fun i => 0 ≤ i < 65536) (indicies g') ∧
     Forall (index_from (loaded_model l)) (indicies g')).
Proof.
  split; [exact load_primitive_indices|].
  intros fuel l g' H. split.
  - apply (load_gltf_model_rel (fun g g' => indices_u16 g → indices_u16 g') l
             (load_primitive_u16 (loaded_model l)) fuel _ _ H).
    constructor.
  - apply (load_gltf_model_rel_in
             (fun g g' => Forall (index_from (loaded_model l)) (indicies g) →
                          Forall (index_from (loaded_model l)) (indicies g')) l
             (fun m tr prim g g' => load_primitive_index_from (loaded_model l) m tr prim g g')
             fuel _ _ H).
    constructor.
Qed.

(** C10.  The sixteen subscripts of [node.matrix] are never out of range:
    [local_transform] always has a value, which is the matrix of the sixteen
    entries when there are exactly sixteen and the identity for every other
    size.  A node whose [mesh] is negative pushes nothing itself: its mesh
    step leaves the three buffers as they are, and its visit is the visit of
    its children, started from the very state the node was entered with.
    The children are traversed all the same: what the visit returns is what
    the depth-first traversal of the children gives from that state (the
    state itself when there is no child), and the mesh of every child was
    loaded on the way, under the child's matrix times the node's. *)
Theorem matrix_reads_in_bounds :
  (∀ node, ∃ m, local_transform node = Some m) ∧
  (∀ node, vec_size (matrix node) = 16 →
     ∃ a0 a1 a2 a3 a4 a5 a6 a7 a8 a9 a10 a11 a12 a13 a14 a15,
       matrix node = [a0; a1; a2; a3; a4; a5; a6; a7; a8; a9; a10; a11; a12; a13; a14; a15] ∧
       local_transform node =
         Some (mat4_of_16 a0 a1 a2 a3 a4 a5 a6 a7 a8 a9 a10 a11 a12 a13 a14 a15)) ∧
  (∀ node, vec_size (matrix node) ≠ 16 → local_transform node = Some mat4_identity) ∧
  (∀ fuel model nodeId node tr g,
     vec_at (nodes model) nodeId = Some node →
     mesh node < 0 →
     ∃ m, local_transform node = Some m ∧
       load_gltf_node (S fuel) model nodeId tr g =
       for_each (children node)
         (fun childNodeId => load_gltf_node fuel model childNodeId (mat4_mul m tr)) g) ∧
  (∀ model node tr g, mesh node < 0 → load_node_mesh model node tr g = Ok tt g) ∧
  (∀ fuel model nodeId node tr g g',
     vec_at (nodes model) nodeId = Some node →
     mesh node < 0 →
     load_gltf_node fuel model nodeId tr g = Ok tt g' →
     depth_first_all model (children node) (mat4_mul (node_matrix node) tr) g g' ∧
     (children node = [] → g' = g) ∧
     ∀ c, c ∈ children node →
       ∃ cnode g1 g2,
         vec_at (nodes model) c = Some cnode ∧
         grows g g1 ∧
         load_node_mesh model cnode
           (mat4_mul (node_matrix cnode) (mat4_mul (node_matrix node) tr)) g1 = Ok tt g2 ∧
         grows g2 g').
Proof.
  split; [exact local_transform_total|].
  split; [exact local_transform_16|].
  split; [exact local_transform_other|].
  assert (Hskip : ∀ model node tr g,
            mesh node < 0 → load_node_mesh model node tr g = Ok tt g).
  { intros model node tr g Hmesh. unfold load_node_mesh.
    by rewrite decide_False by lia. }
  split; [|split; [done|]].
  - intros fuel model nodeId node tr g Hnode Hmesh.
    exists (node_matrix node). split; [apply local_transform_node_matrix|].
    apply load_gltf_node_unfold; [done | by apply Hskip].
  - intros fuel model nodeId node tr g g' Hnode Hmesh H.
    apply load_gltf_node_depth_first in H.
    inversion H as [? node' ? ? g1 ? Hnode' Hown Hall]; subst.
    assert (node' = node) as -> by congruence.
    rewrite Hskip in Hown by done. injection Hown as <-.
    split; [done|]. split.
    + intros E. rewrite E in Hall. by inversion Hall.
    + intros c Hc.
      destruct (depth_first_all_child _ _ _ _ _ _ Hall Hc) as (ga & gb & Hga & Hdf & Hgb).
      inversion Hdf as [? cnode ? ? gc ? Hcnode Hcmesh Hcall]; subst.
      exists cnode, ga, gc. split; [done|]. split; [done|]. split; [done|].
      etransitivity; [by eapply depth_first_all_grows | done].
Qed.

(** X13.  Draw commands come in pre-order: a visit first appends the
    commands of the node's own mesh, one per primitive and in the order of
    the primitives (none when the node has no mesh), the command at each
    place being the one of the primitive at that place, with that
    primitive's index count and the node's accumulated transform; and only
    then what the visits of its children append, child after child. *)
Theorem draw_commands_preorder fuel model nodeId tr g g' :
  load_gltf_node (S fuel) model nodeId tr g = Ok tt g' →
  ∃ node own below,
    vec_at (nodes model) nodeId = Some node ∧
    drawObjects g' = drawObjects g ++ own ++ below ∧
    Forall (fun c => transform c = mat4_mul (node_matrix node) tr) own ∧
    (mesh node < 0 → own = []) ∧
    (∀ m, vec_at (meshes model) (mesh node) = Some m →
       length own = length (primitives m) ∧
       Forall2 (command_of model (mat4_mul (node_matrix node) tr)) (primitives m) own) ∧
    ∃ g1, drawObjects g1 = drawObjects g ++ own ∧
          (∀ m, vec_at (meshes model) (mesh node) = Some m →
             for_each (primitives m)
               (load_primitive model (mat4_mul (node_matrix node) tr)) g = Ok tt g1) ∧
          for_each (children node)
            (fun c => load_gltf_node fuel model c (mat4_mul (node_matrix node) tr)) g1
          = Ok tt g' ∧
          depth_first_all model (children node) (mat4_mul (node_matrix node) tr) g1 g'.
Proof.
  intros H. apply load_gltf_node_step in H as (node & g1 & Hnode & Hmesh & Hkids).
  assert (adds_draws (fun _ => True) g1 g') as (below & Ebelow & _).
  { eapply (for_each_rel (adds_draws _)), Hkids. intros c s s' _ Hc.
    eapply adds_draws_impl, load_gltf_node_paths, Hc. done. }
  assert (Hall : depth_first_all model (children node)
                   (mat4_mul (node_matrix node) tr) g1 g').
  { eapply for_each_depth_first, Hkids. intros c tr' s s'.
    apply load_gltf_node_depth_first. }
  unfold load_node_mesh in Hmesh. destruct (decide (0 ≤ mesh node)) as [Hm|Hm].
  - apply bind_Ok in Hmesh as (m & g0 & [Hmm ->]%checked_Ok & Hmesh).
    apply bind_Ok in Hmesh as ([] & g0 & [_ ->]%ret_Ok & Hmesh).
    destruct (load_primitives_draws _ _ _ _ _ Hmesh) as (own & Eown & Hlen & Htr).
    destruct (load_primitives_commands _ _ _ _ _ Hmesh) as (own' & Eown' & Hcmd).
    assert (own' = own) as -> by (rewrite Eown in Eown'; by apply app_inv_head in Eown').
    exists node, own, below. split; [done|]. split; [by rewrite Ebelow, Eown, app_assoc|].
    split; [done|]. split; [lia|]. split.
    + intros m' Hm'. assert (m' = m) as -> by congruence. done.
    + exists g1. split; [done|]. split; [|done].
      intros m' Hm'. assert (m' = m) as -> by congruence. done.
  - apply ret_Ok in Hmesh as [_ ->].
    exists node, [], below. split; [done|]. split; [done|]. split; [constructor|].
    split; [done|]. split.
    + intros m Hm'. apply vec_at_Some in Hm' as [? _]. lia.
    + exists g. split; [by rewrite app_nil_r|]. split; [|done].
      intros m Hm'. apply vec_at_Some in Hm' as [? _]. lia.
Qed.

End Properties.

(** * The definitions at work on concrete documents *)

#[local] Existing Instance sample_ext.

(** ** Accessors of [2^32] elements *)

Lemma huge_primitive_in_range (n : N) :
  (14 * n < 2 ^ 64)%N →
  primitive_in_range (huge_model n) sample_primitive.
Proof.
  intros Hn.
  exists (huge_positions n), huge_view0, (huge_buffer n),
         (huge_indices n), (huge_view1 n), (huge_buffer n).
  assert (Hsize : vec_size (buf_data (huge_buffer n)) = 14 * Z.of_N n).
  { unfold vec_size, huge_buffer, buf_data. rewrite length_replicate. lia. }
  split; [reflexivity|]. split; [reflexivity|]. split.
  - intros k Hk. change (Z.of_N (acc_count (huge_positions n))) with (Z.of_N n) in Hk.
    unfold vertex_of, element_offset.
    change (size_t (ByteStride (huge_positions n) huge_view0)) with 12.
    change (Z.of_N (bv_byteOffset huge_view0)) with 0.
    change (Z.of_N (acc_byteOffset (huge_positions n))) with 0.
    unfold size_t. rewrite Z.mod_small by lia.
    destruct (read_float_is_Some (buf_data (huge_buffer n)) (0 + 0 + 12 * k) 0)
      as [e0 ->]; [lia|lia|].
    destruct (read_float_is_Some (buf_data (huge_buffer n)) (0 + 0 + 12 * k) 1)
      as [e1 ->]; [lia|lia|].
    destruct (read_float_is_Some (buf_data (huge_buffer n)) (0 + 0 + 12 * k) 2)
      as [e2 ->]; [lia|lia|].
    by eexists.
  - intros k Hk. change (Z.of_N (acc_count (huge_indices n))) with (Z.of_N n) in Hk.
    unfold index_of, element_offset.
    change (size_t (ByteStride (huge_indices n) (huge_view1 n))) with 2.
    change (Z.of_N (bv_byteOffset (huge_view1 n))) with (Z.of_N (12 * n)).
    change (Z.of_N (acc_byteOffset (huge_indices n))) with 0.
    unfold size_t. rewrite Z.mod_small by lia.
    destruct (read_u16_is_Some (buf_data (huge_buffer n)) (Z.of_N (12 * n) + 0 + 2 * k))
      as [x ->]; [lia|lia|]. by eexists.
Qed.

(** The document loads; its second draw command is made when both buffers
    already hold [n] elements. *)
Lemma huge_run (n : N) :
  (14 * n < 2 ^ 64)%N →
  ∃ g1 g2 cmd,
    load_primitive (huge_model n) (mat4_mul mat4_identity mat4_identity)
      sample_primitive initial_globals = Ok tt g1 ∧
    load_primitive (huge_model n) (mat4_mul mat4_identity mat4_identity)
      sample_primitive g1 = Ok tt g2 ∧
    load_gltf_model 1 (huge_loaded n) initial_globals = Ok tt g2 ∧
    vec_size (vertices g1) = Z.of_N n ∧
    vec_size (indicies g1) = Z.of_N n ∧
    drawObjects g2 = drawObjects g1 ++ [cmd] ∧
    indexCount cmd = Z.of_N n mod 2 ^ 32 ∧
    firstIndex cmd = Z.of_N n mod 2 ^ 32 ∧
    vertexOffset cmd = Z.of_N n mod 2 ^ 32.
Proof.
  intros Hn.
  set (tr := mat4_mul mat4_identity mat4_identity).
  destruct (settled_Ok _ _
              (load_primitive_settled (huge_model n) tr sample_primitive initial_globals)
              (huge_primitive_in_range n Hn)) as ([] & g1 & E1).
  destruct (settled_Ok _ _
              (load_primitive_settled (huge_model n) tr sample_primitive g1)
              (huge_primitive_in_range n Hn)) as ([] & g2 & E2).
  destruct (load_primitive_sizes _ _ _ _ _ E1)
    as (pa & pv & pb & ia & iv & ib & Hp & Hi & Hv1 & Hx1).
  change (Some (huge_positions n, huge_view0, huge_buffer n) = Some (pa, pv, pb)) in Hp.
  change (Some (huge_indices n, huge_view1 n, huge_buffer n) = Some (ia, iv, ib)) in Hi.
  injection Hp as <- <- <-. injection Hi as <- <- <-.
  change (Z.of_N (acc_count (huge_positions n))) with (Z.of_N n) in Hv1.
  change (Z.of_N (acc_count (huge_indices n))) with (Z.of_N n) in Hx1.
  change (vec_size (vertices initial_globals)) with 0 in Hv1.
  change (vec_size (indicies initial_globals)) with 0 in Hx1.
  pose proof E2 as E2'.
  apply load_primitive_Ok in E2'
    as (pa & pv & pb & ia & iv & ib & vs & xs & _ & Hi & _ & _ & Eg).
  change (Some (huge_indices n, huge_view1 n, huge_buffer n) = Some (ia, iv, ib)) in Hi.
  injection Hi as <- <- <-.
  exists g1, g2. eexists.
  split; [exact E1|]. split; [exact E2|]. split; [|split; [lia|split; [lia|]]].
  - rewrite load_gltf_model_cases.
    change (negb (str_empty (loaded_err (huge_loaded n)))) with false.
    change (negb (loaded_ret (huge_loaded n))) with false. cbv iota.
    apply bind_Ok. exists {| scene_nodes := [0] |}, initial_globals.
    split; [reflexivity|].
    apply bind_Ok. exists tt, g2. split; [|reflexivity].
    cbn [for_each scene_nodes]. apply bind_Ok. exists tt, g2. split; [|reflexivity].
    cbn [load_gltf_node].
    apply bind_Ok. exists sample_leaf, initial_globals. split; [reflexivity|].
    apply bind_Ok. exists mat4_identity, initial_globals. split; [reflexivity|].
    apply bind_Ok. exists tt, g2. split; [|reflexivity].
    unfold load_node_mesh. change (mesh sample_leaf) with 0.
    rewrite decide_True by lia.
    apply bind_Ok.
    exists {| primitives := [sample_primitive; sample_primitive] |}, initial_globals.
    split; [reflexivity|].
    apply bind_Ok. exists tt, initial_globals. split; [reflexivity|].
    cbn [for_each primitives]. apply bind_Ok. exists tt, g1. split; [exact E1|].
    apply bind_Ok. exists tt, g2. split; [exact E2|reflexivity].
  - rewrite Eg. cbn [drawObjects indexCount firstIndex vertexOffset].
    split; [reflexivity|]. unfold uint32_t. rewrite Hx1, Hv1, !Z.add_0_l.
    by repeat split.
Qed.

(** Against C2 as it is worded: with accessors of [2^32] elements the
    document loads, and the draw command of its second primitive has none of
    its three counters equal to what the wording says: [indexCount] is not
    the count of the index accessor, [firstIndex] is not the length the index
    buffer had before the primitive, [vertexOffset] is not the length the
    vertex buffer had (each is [0], the other side is [2^32]). *)
Lemma draw_counters_truncated :
  ∃ g1 g2 cmd ia iv ib,
    load_primitive (huge_model 4294967296) (mat4_mul mat4_identity mat4_identity)
      sample_primitive initial_globals = Ok tt g1 ∧
    load_primitive (huge_model 4294967296) (mat4_mul mat4_identity mat4_identity)
      sample_primitive g1 = Ok tt g2 ∧
    load_gltf_model 1 (huge_loaded 4294967296) initial_globals = Ok tt g2 ∧
    drawObjects g2 = drawObjects g1 ++ [cmd] ∧
    accessor_data (huge_model 4294967296) (indices sample_primitive) = Some (ia, iv, ib) ∧
    indexCount cmd ≠ Z.of_N (acc_count ia) ∧
    firstIndex cmd ≠ vec_size (indicies g1) ∧
    vertexOffset cmd ≠ vec_size (vertices g1).
Proof.
  destruct (huge_run 4294967296)
    as (g1 & g2 & cmd & E1 & E2 & E & Hv & Hx & Ed & Ec & Ef & Eo); [reflexivity|].
  exists g1, g2, cmd. eexists _, _, _.
  split; [exact E1|]. split; [exact E2|]. split; [exact E|]. split; [exact Ed|].
  split; [reflexivity|].
  rewrite Ec, Ef, Eo, Hv, Hx. repeat split; discriminate.
Qed.

(** ** The sample document *)

Lemma sample_children a b : child_of sample_model a b → a < b.
Proof.
  intros (node & [H0 Hn]%vec_at_Some & Hb).
  destruct (Z.to_nat a) as [|[|k]] eqn:Ea; simpl in Hn; simplify_eq.
  - apply list_elem_of_singleton in Hb as ->. lia.
  - by apply not_elem_of_nil in Hb.
Qed.

Lemma acyclic_by_numbering (model : Model) top :
  (∀ a b, child_of model a b → a < b) → acyclic_from model top.
Proof.
  intros Hlt a _ Hcycle.
  assert (∀ x y, tc (child_of model) x y → x < y) as Htc.
  { induction 1 as [x y H|x y z H _ IH]; [by apply Hlt|].
    apply Hlt in H. lia. }
  apply Htc in Hcycle. lia.
Qed.

Lemma accumulated_transform_witness :
  ∃ scene,
    vec_at (scenes (loaded_model sample_loaded)) (defaultScene (loaded_model sample_loaded))
      = Some scene ∧
    Forall (fun cmd => ∃ root path,
              root ∈ scene_nodes scene ∧
              descent (loaded_model sample_loaded) root path ∧
              accumulated (loaded_model sample_loaded) mat4_identity path
                = Some (transform cmd))
           (drawObjects sample_flat).
Proof.
  apply (proj2 accumulated_transform 2%nat sample_loaded sample_flat).
  reflexivity.
Defined.

Lemma draw_command_of_primitive_witness :
  ∃ ia iv ib cmd,
    accessor_data sample_model (indices sample_primitive) = Some (ia, iv, ib) ∧
    drawObjects sample_flat = drawObjects initial_globals ++ [cmd] ∧
    indexCount cmd = Z.of_N (acc_count ia) mod 2 ^ 32 ∧
    firstIndex cmd = vec_size (indicies initial_globals) mod 2 ^ 32 ∧
    vertexOffset cmd = vec_size (vertices initial_globals) mod 2 ^ 32.
Proof.
  apply (draw_command_of_primitive sample_model sample_scale2 sample_primitive
           initial_globals sample_flat).
  reflexivity.
Defined.

Lemma load_gltf_model_throws_witness :
  ∃ msg g', load_gltf_model 0 sample_failed initial_globals = Threw msg g'.
Proof.
  apply (proj1 (load_gltf_model_throws 0 sample_failed initial_globals)).
  right. reflexivity.
Defined.

Lemma frames_keep_globals_witness :
  vertices (globals sample_app_frame2) = vertices (globals sample_app) ∧
  indicies (globals sample_app_frame2) = indicies (globals sample_app) ∧
  drawObjects (globals sample_app_frame2) = drawObjects (globals sample_app).
Proof.
  apply (frames_keep_globals [sample_ctx; sample_ctx0] sample_app sample_app_frame2).
  reflexivity.
Defined.

Lemma frame_uniforms_witness :
  uniformBuffer sample_app_frame1 !! 1%nat =
  Some (@Build_ShaderUniform sample_ext sample_scale2
          (Mat4 (Vec4 3 0 0 0) (Vec4 0 (-4) 0 0) (Vec4 0 0 1 0) (Vec4 15 (-20) 5 1))).
Proof.
  assert (render sample_ctx sample_app = Ok tt sample_app_frame1) as H
    by reflexivity.
  destruct (frame_uniforms sample_ctx sample_app sample_app_frame1 H)
    as (_ & _ & Hslot & _).
  exact (Hslot 0%nat sample_cmd eq_refl).
Defined.

Lemma buffers_only_grow_witness :
  ∃ vs ixs ds, appended initial_globals sample_flat vs ixs ds ∧
               Forall (in_buffers sample_flat) ds.
Proof.
  apply (proj1 (proj2 buffers_only_grow) 2%nat sample_model 0 mat4_identity
           initial_globals sample_flat).
  reflexivity.
Defined.

Lemma appended_vertices_witness :
  ∃ pa pv pb vs,
    accessor_data sample_model (attr_at (attributes sample_primitive) "POSITION")
      = Some (pa, pv, pb) ∧
    vertices sample_flat = vertices initial_globals ++ vs ∧
    length vs = N.to_nat (acc_count pa) ∧
    ∀ (i : nat) v, vs !! i = Some v →
      color v = Vec3 f0_7 f0_7 f0_7 ∧
      ∃ e0 e1 e2,
        let base := Z.of_N (bv_byteOffset pv) + Z.of_N (acc_byteOffset pa)
                    + size_t (size_t (ByteStride pa pv) * Z.of_nat i) in
        read_float (buf_data pb) base 0 = Some e0 ∧
        read_float (buf_data pb) base 1 = Some e1 ∧
        read_float (buf_data pb) base 2 = Some e2 ∧
        pos v = Vec3 e0 e1 e2.
Proof.
  apply (appended_vertices sample_model sample_scale2 sample_primitive
           initial_globals sample_flat).
  reflexivity.
Defined.

(** ** The further properties on the sample documents *)

Lemma cyclic_never_returns_witness :
  load_gltf_node 5 looping_model 0 mat4_identity initial_globals ≠ Ok tt initial_globals.
Proof.
  apply (cyclic_never_returns looping_model 0 0 5%nat mat4_identity
           initial_globals initial_globals).
  - reflexivity.
  - apply tc_once. eexists. split; [reflexivity|]. by left.
Defined.

Lemma unindexed_primitive_undefined_witness :
  load_primitive sample_model mat4_identity unindexed_primitive initial_globals = Undefined.
Proof.
  apply (unindexed_primitive_undefined sample_model mat4_identity unindexed_primitive
           initial_globals).
  simpl. lia.
Defined.

Lemma missing_position_is_accessor_0_witness :
  load_primitive sample_model mat4_identity bare_primitive initial_globals =
  load_primitive sample_model mat4_identity
    {| attributes := <["POSITION"%string := 0]> (attributes bare_primitive);
       indices := indices bare_primitive |} initial_globals.
Proof.
  apply (missing_position_is_accessor_0 sample_model mat4_identity bare_primitive
           initial_globals).
  reflexivity.
Defined.

Lemma missing_scene_undefined_witness :
  load_gltf_model 2 sceneless_loaded initial_globals = Undefined.
Proof.
  apply (missing_scene_undefined 2 sceneless_loaded initial_globals); reflexivity.
Defined.

Lemma draw_commands_tile_indices_witness :
  tiles 0 (drawObjects sample_flat) (vec_size (indicies sample_flat)).
Proof.
  apply (draw_commands_tile_indices 2 sample_loaded sample_flat).
  - reflexivity.
  - reflexivity.
Defined.

Lemma loaded_vertices_provenance_witness :
  Forall (vertex_from (loaded_model sample_loaded)) (vertices sample_flat).
Proof.
  apply (loaded_vertices_provenance 2 sample_loaded sample_flat). reflexivity.
Defined.

Lemma appended_indices_witness :
  ∃ ia iv ib xs,
    accessor_data sample_model (indices sample_primitive) = Some (ia, iv, ib) ∧
    indicies sample_flat = indicies initial_globals ++ xs ∧
    length xs = N.to_nat (acc_count ia) ∧
    ∀ (i : nat) x, xs !! i = Some x →
      ∃ b0 b1,
        read_bytes (buf_data ib)
          (Z.of_N (bv_byteOffset iv) + Z.of_N (acc_byteOffset ia)
           + size_t (size_t (ByteStride ia iv) * Z.of_nat i)) 2 = Some [b0; b1] ∧
        x = byte_val b0 + 256 * byte_val b1.
Proof.
  apply (appended_indices sample_model sample_scale2 sample_primitive
           initial_globals sample_flat).
  reflexivity.
Defined.

Lemma frame_commands_witness :
  ∃ fb,
    vec_at (framebuffers sample_app) (ctx_imageIndex sample_ctx) = Some fb ∧
    recorded sample_app_frame1 = recorded sample_app ++
      [CmdBegin;
       CmdBeginRenderPass fb (uint32_t (width sample_app)) (uint32_t (height sample_app));
       CmdBindPipeline; CmdBindVertexBuffer 0; CmdBindIndexBuffer 0] ++
      draw_commands (ctx_imageIndex sample_ctx)
        (vec_size (drawObjects (globals sample_app))) 0
        (drawObjects (globals sample_app)) ++
      [CmdEndRenderPass; CmdEnd].
Proof.
  apply (frame_commands sample_ctx sample_app sample_app_frame1). reflexivity.
Defined.

Lemma frame_keeps_other_images_witness :
  length (uniformBuffer sample_app_frame1) = length (uniformBuffer sample_app) ∧
  uniformBuffer sample_app_frame1 !! 0%nat = uniformBuffer sample_app !! 0%nat.
Proof.
  apply (frame_keeps_other_images sample_ctx sample_app sample_app_frame1 0 0).
  - reflexivity.
  - simpl. lia.
  - lia.
  - discriminate.
  - simpl. unfold vec_size. simpl. lia.
Defined.

Lemma init_uploads_witness :
  globals (application sample_ready) = globals (application sample_before_init) ∧
  vertexBuffer sample_ready = vertices (globals (application sample_before_init)) ∧
  indexBuffer sample_ready = indicies (globals (application sample_before_init)) ∧
  framebuffers (application sample_ready) =
    framebuffers (application sample_before_init) ++ (sample_createFramebuffer <$> [0; 1]) ∧
  (sizeof_ShaderUniform * vec_size [0; 1]
     * vec_size (drawObjects (globals (application sample_before_init))) < 2 ^ 64 →
   vec_size (uniformBuffer (application sample_ready)) =
   vec_size [0; 1] * vec_size (drawObjects (globals (application sample_before_init)))).
Proof.
  apply (init_uploads [0; 1] sample_createFramebuffer sample_junk
           sample_before_init sample_ready).
  reflexivity.
Defined.

Lemma frame_after_init_witness :
  (∃ a', render sample_ctx (application sample_ready) = Ok tt a') ↔
  0 ≤ ctx_imageIndex sample_ctx < vec_size [0; 1].
Proof.
  apply (frame_after_init [0; 1] sample_createFramebuffer sample_junk
           sample_before_init sample_ready sample_ctx).
  - reflexivity.
  - reflexivity.
  - discriminate.
  - reflexivity.
Defined.

Lemma main_stops_on_load_failure_witness :
  ∃ msg,
    main 2 sample_files "/src" sample_failed [0; 1] sample_createFramebuffer sample_junk
      [sample_ctx; sample_ctx0] sample_start =
    Threw msg (with_shaders sample_files "/src" sample_start).
Proof.
  apply (main_stops_on_load_failure 2 sample_files "/src" sample_failed [0; 1]
           sample_createFramebuffer sample_junk [sample_ctx; sample_ctx0] sample_start).
  right. reflexivity.
Defined.

Lemma main_uploads_what_was_loaded_witness :
  ∃ g,
    load_gltf_model 2 sample_loaded (globals (application sample_start)) = Ok tt g ∧
    globals (application sample_done) = g ∧
    vertexBuffer sample_done = vertices g ∧
    indexBuffer sample_done = indicies g ∧
    pipeline sample_done = pipeline sample_start ++
      pipeline_calls
        (read_file sample_files ("/src" +:+ "/sample/1_glTFViewer/fragment.glsl"))
        (read_file sample_files ("/src" +:+ "/sample/1_glTFViewer/vertex.glsl"))
        (width (application sample_start)) (height (application sample_start)).
Proof.
  apply (main_uploads_what_was_loaded 2 sample_files "/src" sample_loaded [0; 1]
           sample_createFramebuffer sample_junk [sample_ctx; sample_ctx0]
           sample_start sample_done).
  reflexivity.
Defined.

(** ** The traversal on the sample documents *)

Lemma load_gltf_node_terminates_witness :
  ∃ fuel, ∀ fuel' tr g,
    (fuel ≤ fuel')%nat →
    load_gltf_node fuel' sample_model 0 tr g ≠ OutOfFuel ∧
    load_gltf_node fuel' sample_model 0 tr g = load_gltf_node fuel sample_model 0 tr g ∧
    (model_in_range sample_model → is_Some (vec_at (nodes sample_model) 0) →
     ∃ g', load_gltf_node fuel' sample_model 0 tr g = Ok tt g') ∧
    (∀ g', load_gltf_node fuel' sample_model 0 tr g = Ok tt g' ↔
           depth_first sample_model 0 tr g g') ∧
    (∀ g' b,
       load_gltf_node fuel' sample_model 0 tr g = Ok tt g' →
       rtc (child_of sample_model) 0 b →
       ∃ path node trb g1 g2,
         descent sample_model 0 path ∧ last path = Some b ∧
         vec_at (nodes sample_model) b = Some node ∧
         accumulated sample_model tr path = Some trb ∧
         grows g g1 ∧ load_node_mesh sample_model node trb g1 = Ok tt g2 ∧ grows g2 g').
Proof.
  apply (load_gltf_node_terminates sample_model 0).
  apply acyclic_by_numbering, sample_children.
Defined.

Lemma indices_below_65536_witness :
  Forall (fun i => 0 ≤ i < 65536) (indicies pair_flat) ∧
  Forall (index_from pair_model) (indicies pair_flat).
Proof.
  apply (proj2 indices_below_65536 1%nat pair_loaded pair_flat).
  reflexivity.
Defined.

Lemma matrix_reads_in_bounds_witness :
  depth_first_all sample_model (children sample_root)
    (mat4_mul (node_matrix sample_root) mat4_identity) initial_globals sample_flat ∧
  (children sample_root = [] → sample_flat = initial_globals) ∧
  ∀ c, c ∈ children sample_root →
    ∃ cnode g1 g2,
      vec_at (nodes sample_model) c = Some cnode ∧
      grows initial_globals g1 ∧
      load_node_mesh sample_model cnode
        (mat4_mul (node_matrix cnode) (mat4_mul (node_matrix sample_root) mat4_identity)) g1
        = Ok tt g2 ∧
      grows g2 sample_flat.
Proof.
  apply (proj2 (proj2 (proj2 (proj2 (proj2 matrix_reads_in_bounds)))) 2%nat sample_model 0
           sample_root mat4_identity initial_globals sample_flat).
  - reflexivity.
  - simpl. lia.
  - reflexivity.
Defined.

Lemma draw_commands_preorder_witness :
  ∃ node own below,
    vec_at (nodes pair_model) 0 = Some node ∧
    drawObjects pair_flat = drawObjects initial_globals ++ own ++ below ∧
    Forall (fun c => transform c = mat4_mul (node_matrix node) mat4_identity) own ∧
    (mesh node < 0 → own = []) ∧
    (∀ m, vec_at (meshes pair_model) (mesh node) = Some m →
       length own = length (primitives m) ∧
       Forall2 (command_of pair_model (mat4_mul (node_matrix node) mat4_identity))
               (primitives m) own) ∧
    ∃ g1, drawObjects g1 = drawObjects initial_globals ++ own ∧
          (∀ m, vec_at (meshes pair_model) (mesh node) = Some m →
             for_each (primitives m)
               (load_primitive pair_model (mat4_mul (node_matrix node) mat4_identity))
               initial_globals = Ok tt g1) ∧
          for_each (children node)
            (fun c => load_gltf_node 0 pair_model c
                        (mat4_mul (node_matrix node) mat4_identity)) g1
          = Ok tt pair_flat ∧
          depth_first_all pair_model (children node)
            (mat4_mul (node_matrix node) mat4_identity) g1 pair_flat.
Proof.
  apply (draw_commands_preorder 0 pair_model 0 mat4_identity initial_globals pair_flat).
  reflexivity.
Defined.
